(** * find_log_entries: segmentation of a GlassFish log into entries,
      and conjunctive whole-entry regex filtering.

    Shallow embedding of [aggregate_entries] and [make_regex_filter] of
    [find_log_entries.py], with the parts of Python's [str] and [re] they
    rely on. *)

From Stdlib Require Import Ascii String DecimalString DecimalNat.
From Stdlib Require Import List Bool Arith NArith Lia.
From Stdlib Require Import Permutation Sorted.
Import ListNotations.

Set Implicit Arguments.

(** ** Python text: a [str] is a sequence of Unicode code points *)

Definition char : Type := N.
Definition str : Type := list char.

(** Literals: the code points of a Latin-1 string constant. *)
Definition py (s : string) : str := map N_of_ascii (list_ascii_of_string s).

Definition NEWLINE : char := 10%N.

(** [Py_UNICODE_ISSPACE]: bidirectional type WS, B or S, or category Zs. *)
Definition Py_UNICODE_ISSPACE (c : char) : bool :=
  ((9 <=? c) && (c <=? 13) ||
   (28 <=? c) && (c <=? 32) ||
   (c =? 133) || (c =? 160) || (c =? 5760) ||
   (8192 <=? c) && (c <=? 8202) ||
   (c =? 8232) || (c =? 8233) || (c =? 8239) || (c =? 8287) ||
   (c =? 12288))%N.

(** [str.isspace()]: at least one character, and all of them whitespace. *)
Definition isspace (s : str) : bool :=
  match s with
  | [] => false
  | _ :: _ => forallb Py_UNICODE_ISSPACE s
  end.

(** [needle in hay] for strings. *)
Fixpoint startswith (prefix s : str) : bool :=
  match prefix, s with
  | [], _ => true
  | _ :: _, [] => false
  | a :: prefix', b :: s' => (a =? b)%N && startswith prefix' s'
  end.

Fixpoint contains (needle hay : str) : bool :=
  startswith needle hay ||
  match hay with
  | [] => false
  | _ :: hay' => contains needle hay'
  end.

(** ** The fragment of [re] the program uses

    Patterns without anchors, groups' side effects or backreferences: for
    these, whether [match]/[search] finds something depends only on the
    regular language of the pattern. *)

Module Re.

Inductive regex : Type :=
| Void : regex
| Eps : regex
| Lit : char -> regex
| Dot : regex
| Cat : regex -> regex -> regex
| Alt : regex -> regex -> regex
| Star : regex -> regex.

(** The words a pattern matches exactly. [.] is any character but a
    newline (no DOTALL flag). *)
Inductive lang : regex -> str -> Prop :=
| lang_eps : lang Eps []
| lang_lit : forall c, lang (Lit c) [c]
| lang_dot : forall c, c <> NEWLINE -> lang Dot [c]
| lang_cat : forall r1 r2 w1 w2,
    lang r1 w1 -> lang r2 w2 -> lang (Cat r1 r2) (w1 ++ w2)
| lang_alt_l : forall r1 r2 w, lang r1 w -> lang (Alt r1 r2) w
| lang_alt_r : forall r1 r2 w, lang r2 w -> lang (Alt r1 r2) w
| lang_star_nil : forall r, lang (Star r) []
| lang_star_app : forall r w1 w2,
    lang r w1 -> lang (Star r) w2 -> lang (Star r) (w1 ++ w2).

Fixpoint nullable (r : regex) : bool :=
  match r with
  | Void => false
  | Eps => true
  | Lit _ => false
  | Dot => false
  | Cat r1 r2 => nullable r1 && nullable r2
  | Alt r1 r2 => nullable r1 || nullable r2
  | Star _ => true
  end.

Fixpoint deriv (c : char) (r : regex) : regex :=
  match r with
  | Void => Void
  | Eps => Void
  | Lit d => if (c =? d)%N then Eps else Void
  | Dot => if (c =? NEWLINE)%N then Void else Eps
  | Cat r1 r2 =>
      if nullable r1 then Alt (Cat (deriv c r1) r2) (deriv c r2)
      else Cat (deriv c r1) r2
  | Alt r1 r2 => Alt (deriv c r1) (deriv c r2)
  | Star r1 => Cat (deriv c r1) (Star r1)
  end.

(** [Pattern.match(s)] as a truth value: some prefix of [s] is matched. *)
Fixpoint re_match (r : regex) (s : str) : bool :=
  nullable r ||
  match s with
  | [] => false
  | c :: s' => re_match (deriv c r) s'
  end.

(** [Pattern.search(s)] as a truth value: a match starts somewhere in [s]. *)
Fixpoint re_search (r : regex) (s : str) : bool :=
  re_match r s ||
  match s with
  | [] => false
  | _ :: s' => re_search r s'
  end.

(** A literal string as a pattern. *)
Fixpoint literal (s : str) : regex :=
  match s with
  | [] => Eps
  | c :: s' => Cat (Lit c) (literal s')
  end.

End Re.

Import Re.

(** ** The log-entry program *)

(** An object with a [search] method, as [make_regex_filter] expects. *)
Class Searchable (R : Type) : Type := search : R -> str -> bool.

#[global] Instance regex_searchable : Searchable regex := re_search.

(** [rx_end = re.compile(r'.*\|#\]')] *)
Definition rx_end : regex :=
  Cat (Star Dot) (Cat (Lit 124%N) (Cat (Lit 35%N) (Lit 93%N))).

Definition END_SENTINEL : str := py "|#]".
Definition START_MARKER : str := py "[#|".

Definition MAX_BUFFER : nat := 5000.

Inductive exn : Type :=
| AssertionError
| UnboundLocalError.

(** The local variables of [aggregate_entries] that live across
    iterations; [entry_line_no] is unbound until first assigned. *)
Record locals : Type := mkLocals {
  buffer : list str;
  entry_line_no : option nat
}.

Definition entry : Type := (nat * list str)%type.

Inductive step : Type :=
| Continue : locals -> step
| Yield : entry -> locals -> step
| Raise : exn -> step.

(** Lines 40-44: the guarded append. *)
Definition append_line (line_no : nat) (line : str) (st : locals)
  : exn + locals :=
  if (0 <? length (buffer st)) || negb (isspace line) then
    let eln := if length (buffer st) =? 0 then Some line_no
               else entry_line_no st in
    if length (buffer st) <? MAX_BUFFER then
      inr (mkLocals (buffer st ++ [line]) eln)
    else inl AssertionError
  else inr st.

(** Lines 45-47: the sentinel test on the raw line, the yield and the
    reset of the buffer. *)
Definition flush (line : str) (st : locals) : step :=
  if re_match rx_end line then
    match entry_line_no st with
    | Some n => Yield (n, buffer st) (mkLocals [] (Some n))
    | None => Raise UnboundLocalError
    end
  else Continue st.

(** One iteration of the [for] loop. *)
Definition body (line_no : nat) (line : str) (st : locals) : step :=
  match append_line line_no line st with
  | inl e => Raise e
  | inr st1 => flush line st1
  end.

(** The loop over [enumerate(lines, line_no)]: the entries yielded, and
    either the locals at exhaustion or the exception that ended it. *)
Fixpoint loop (line_no : nat) (lines : list str) (st : locals)
  : list entry * (exn + locals) :=
  match lines with
  | [] => ([], inr st)
  | line :: rest =>
      match body line_no line st with
      | Continue st1 => loop (S line_no) rest st1
      | Yield e st1 =>
          let (ys, r) := loop (S line_no) rest st1 in (e :: ys, r)
      | Raise x => ([], inl x)
      end
  end.

Definition init : locals := mkLocals [] None.

(** How the generator ends: exhausted (StopIteration) or by an exception. *)
Inductive outcome : Type :=
| Returned
| Raised : exn -> outcome.

Definition outcome_of (r : exn + locals) : outcome :=
  match r with
  | inl x => Raised x
  | inr _ => Returned
  end.

(** [aggregate_entries(lines)], run to its end: what it yields, in order,
    and how it ends. Whatever is left in the buffer is dropped. *)
Definition aggregate_entries (lines : list str) : list entry * outcome :=
  let (ys, r) := loop 1 lines init in (ys, outcome_of r).

Definition yields (lines : list str) : list entry :=
  fst (aggregate_entries lines).

(** [make_regex_filter(regexes)]: the closure [matches]. *)
Section Filter.

Context {R : Type} `{Searchable R}.

(** [any(regex.search(l) for l in entry[1])] *)
Definition any_line (regex : R) (e : entry) : bool :=
  existsb (search regex) (snd e).

(** The [for ... else] over the patterns: [False] at the first pattern
    that no line satisfies, [True] when the patterns are exhausted. *)
Fixpoint make_regex_filter (regexes : list R) (e : entry) : bool :=
  match regexes with
  | [] => true
  | regex :: regexes' =>
      if negb (any_line regex e) then false
      else make_regex_filter regexes' e
  end.

End Filter.

(** The per-file pipeline of the main block: [filter(matches, entries)]. *)
Definition matching_entries {R : Type} `{Searchable R}
  (regexes : list R) (lines : list str) : list entry :=
  filter (make_regex_filter regexes) (yields lines).

(** ** Vocabulary of the specification *)

(** A Line of the data model: text with a newline, if any, only as its
    last character (what iterating over a text file produces). *)
Definition is_line (s : str) : bool :=
  negb (existsb (N.eqb NEWLINE) (removelast s)).

(** The line contains the end-sentinel [|#]]. *)
Definition has_sentinel (l : str) : bool := contains END_SENTINEL l.

(** The last line, and only the last, contains the end-sentinel. *)
Fixpoint sentinel_last_only (e : list str) : bool :=
  match e with
  | [] => false
  | l :: e' =>
      match e' with
      | [] => has_sentinel l
      | _ :: _ => negb (has_sentinel l) && sentinel_last_only e'
      end
  end.

(** The first line is one the aggregator retains on an empty buffer. *)
Definition starts_retained (e : list str) : bool :=
  match e with
  | [] => false
  | l :: _ => negb (isspace l)
  end.

(** An Entry of the data model: Lines, the first of them not blank, the
    sentinel on the last one only, within the sanity bound. *)
Definition well_formed_entry (e : list str) : bool :=
  sentinel_last_only e && starts_retained e && forallb is_line e &&
  (length e <=? MAX_BUFFER).

(** A stream made of entries, each preceded by blank lines, and closed by
    blank lines. *)
Fixpoint compose (segs : list (list str * list str)) (trailing : list str)
  : list str :=
  match segs with
  | [] => trailing
  | (blanks, e) :: segs' => blanks ++ e ++ compose segs' trailing
  end.

(** The entries of such a stream, each with the ordinal of its first
    line, when the stream starts at ordinal [line_no]. *)
Fixpoint located (line_no : nat) (segs : list (list str * list str))
  : list entry :=
  match segs with
  | [] => []
  | (blanks, e) :: segs' =>
      (line_no + length blanks, e)
        :: located (line_no + length blanks + length e) segs'
  end.

(** The stream is blank lines and well-formed entries only. *)
Definition well_formed_stream (segs : list (list str * list str))
  (trailing : list str) : bool :=
  forallb (fun seg => forallb isspace (fst seg) && well_formed_entry (snd seg))
    segs && forallb isspace trailing.

(** No line of the run matches the end-sentinel pattern. *)
Definition quiet (ls : list str) : Prop :=
  Forall (fun l => re_match rx_end l = false) ls.

(** A run the aggregator turns into one entry: it starts with a retained
    line, its last line alone matches the pattern, and it fits the buffer. *)
Definition entry_run (e : list str) : Prop :=
  exists ls last,
    e = ls ++ [last] /\ quiet ls /\ re_match rx_end last = true /\
    starts_retained e = true /\ length e <= MAX_BUFFER.

(** The same two notions, decided. *)
Definition sentinel_free (ls : list str) : bool :=
  forallb (fun l => negb (re_match rx_end l)) ls.

Fixpoint closes_at_last (e : list str) : bool :=
  match e with
  | [] => false
  | l :: e' =>
      match e' with
      | [] => re_match rx_end l
      | _ :: _ => negb (re_match rx_end l) && closes_at_last e'
      end
  end.

Definition is_entry_run (e : list str) : bool :=
  closes_at_last e && starts_retained e && (length e <=? MAX_BUFFER).

(** The two tests the loop applies to a line. *)
Definition line_class (l : str) : bool * bool :=
  (isspace l, re_match rx_end l).

(** Where the entries lie: the start ordinal and the number of lines of
    each. *)
Definition shape (ys : list entry) : list (nat * nat) :=
  map (fun e => (fst e, length (snd e))) ys.

(** The start ordinals moved by [d] lines. *)
Definition shift (d : nat) (ys : list entry) : list entry :=
  map (fun e => (fst e + d, snd e)) ys.

(** The loop invariant, after the lines [done]: the buffer is empty, or it
    is the tail of [done] that began at the recorded ordinal with a
    retained line and has no sentinel line yet. *)
Definition tracks (done : list str) (st : locals) : Prop :=
  buffer st = [] \/
  exists x,
    done = x ++ buffer st /\ entry_line_no st = Some (S (length x)) /\
    starts_retained (buffer st) = true /\ quiet (buffer st) /\
    length (buffer st) <= MAX_BUFFER.

(** The ordinal at which the entry being accumulated, or else the next
    one, can start. *)
Definition start_of (done : list str) (st : locals) : nat :=
  S (length done) - length (buffer st).

(** The pair is a run of [all] that forms one entry, with the ordinal of
    its first line. *)
Definition located_in (all : list str) (e : entry) : Prop :=
  exists x y,
    all = x ++ snd e ++ y /\ fst e = S (length x) /\ entry_run (snd e).

(** Two states that differ only by the ordinal recorded for the entry in
    progress. *)
Definition shifted (d : nat) (st st' : locals) : Prop :=
  buffer st' = buffer st /\
  (buffer st <> [] ->
   exists k, entry_line_no st = Some k /\ entry_line_no st' = Some (k + d)).

(** Two states alike in all the loop looks at besides the line: how many
    lines are buffered and the ordinal recorded. *)
Definition same_shape (st st' : locals) : Prop :=
  length (buffer st) = length (buffer st') /\
  entry_line_no st = entry_line_no st'.

(** ** The fragment of [re] with groups: sequences of atoms

    The patterns the scripts compile for [match] and [finditer] are
    sequences of literal characters, character classes, greedy
    repetitions of a class, anchors and group parentheses. The matcher
    backtracks as [sre] does: a repetition first takes the longest run of
    the class, then gives characters back one at a time. *)

Module Sre.

Inductive atom : Type :=
| Lit : char -> atom                   (* one given character *)
| Cls : (char -> bool) -> atom         (* one character of a class *)
| Rep : (char -> bool) -> nat -> atom  (* class* (from 0) or class+ (from 1) *)
| Bol : bool -> atom                   (* ^, the flag is re.MULTILINE *)
| Eol : bool -> atom                   (* $, the flag is re.MULTILINE *)
| Open : nat -> atom                   (* ( of a numbered group *)
| Close : nat -> atom.                 (* ) of a numbered group *)

Definition pattern : Type := list atom.

(** [.] without DOTALL. *)
Definition dot (c : char) : bool := negb (c =? NEWLINE)%N.

(** The length of the longest prefix of [s] made of characters of the
    class. *)
Fixpoint span (cls : char -> bool) (s : str) : nat :=
  match s with
  | [] => 0
  | c :: s' => if cls c then S (span cls s') else 0
  end.

(** [^]: at the start of the subject, or with MULTILINE after a newline. *)
Definition at_bol (multiline : bool) (pre : str) : bool :=
  match rev pre with
  | [] => true
  | c :: _ => multiline && (c =? NEWLINE)%N
  end.

(** [$]: at the end of the subject or before its final newline, or with
    MULTILINE before any newline. *)
Definition at_eol (multiline : bool) (rest : str) : bool :=
  match rest with
  | [] => true
  | c :: rest' =>
      (c =? NEWLINE)%N &&
      (multiline || match rest' with [] => true | _ :: _ => false end)
  end.

(** The first success among [f n], [f (n - 1)], ..., [f 0]. *)
Fixpoint first_down {A : Type} (f : nat -> option A) (n : nat) : option A :=
  match f n with
  | Some r => Some r
  | None =>
      match n with
      | 0 => None
      | S n' => first_down f n'
      end
  end.

(** Where a group was opened last. *)
Fixpoint mark (g : nat) (marks : list (nat * nat)) : nat :=
  match marks with
  | [] => 0
  | (g', i) :: marks' => if g =? g' then i else mark g marks'
  end.

(** The state of an attempt: the subject is [pre ++ rest], the attempt
    has consumed up to the end of [pre]; [marks] are the open groups and
    [caps] the texts of the closed ones, latest first. [accept] is the
    last word on the end position. The result is the end position and
    the captures. *)
Fixpoint exec (p : pattern) (pre rest : str) (marks : list (nat * nat))
  (caps : list (nat * str)) (accept : nat -> bool) {struct p}
  : option (nat * list (nat * str)) :=
  match p with
  | [] => if accept (length pre) then Some (length pre, caps) else None
  | Lit c :: p' =>
      match rest with
      | d :: rest' =>
          if (c =? d)%N then exec p' (pre ++ [d]) rest' marks caps accept
          else None
      | [] => None
      end
  | Cls cls :: p' =>
      match rest with
      | d :: rest' =>
          if cls d then exec p' (pre ++ [d]) rest' marks caps accept
          else None
      | [] => None
      end
  | Rep cls least :: p' =>
      first_down
        (fun n =>
           if least <=? n then
             exec p' (pre ++ firstn n rest) (skipn n rest) marks caps accept
           else None)
        (span cls rest)
  | Bol multiline :: p' =>
      if at_bol multiline pre then exec p' pre rest marks caps accept
      else None
  | Eol multiline :: p' =>
      if at_eol multiline rest then exec p' pre rest marks caps accept
      else None
  | Open g :: p' => exec p' pre rest ((g, length pre) :: marks) caps accept
  | Close g :: p' =>
      exec p' pre rest marks ((g, skipn (mark g marks) pre) :: caps) accept
  end.

(** A match object: where it starts and ends, and the groups. *)
Record found : Type := mkFound {
  f_start : nat;
  f_end : nat;
  f_caps : list (nat * str)
}.

(** An attempt at one position of the subject. *)
Definition attempt (p : pattern) (subject : str) (i : nat)
  (accept : nat -> bool) : option found :=
  match exec p (firstn i subject) (skipn i subject) [] [] accept with
  | Some (j, caps) => Some (mkFound i j caps)
  | None => None
  end.

(** [Pattern.match(subject)]. *)
Definition rmatch (p : pattern) (subject : str) : option found :=
  attempt p subject 0 (fun _ => true).

(** [Match.group(g)] for [g >= 1]; [None] when the group took no part. *)
Fixpoint group (caps : list (nat * str)) (g : nat) : option str :=
  match caps with
  | [] => None
  | (g', t) :: caps' => if g =? g' then Some t else group caps' g
  end.

(** [Match.group()]: the text matched. *)
Definition whole (subject : str) (m : found) : str :=
  firstn (f_end m - f_start m) (skipn (f_start m) subject).

(** The scan of [search]: the position [i], then the [k] that follow. The
    first attempt alone may be told to refuse an end position. *)
Fixpoint scan (p : pattern) (subject : str) (k i : nat)
  (accept : nat -> bool) : option found :=
  match attempt p subject i accept with
  | Some m => Some m
  | None =>
      match k with
      | 0 => None
      | S k' => scan p subject k' (S i) (fun _ => true)
      end
  end.

(** One search of a scanner that stands at [i]; [advance] says that the
    match before was empty, so that an empty match at [i] is refused. *)
Definition search_from (p : pattern) (subject : str) (i : nat)
  (advance : bool) : option found :=
  scan p subject (length subject - i) i
    (fun j => negb (advance && (j =? i))).

(** [Pattern.finditer(subject)], all of it: each search starts where the
    match before ended. *)
Fixpoint iterate (fuel : nat) (p : pattern) (subject : str) (i : nat)
  (advance : bool) : list found :=
  match fuel with
  | 0 => []
  | S fuel' =>
      match search_from p subject i advance with
      | None => []
      | Some m =>
          m :: iterate fuel' p subject (f_end m) (f_end m =? f_start m)
      end
  end.

Definition finditer (p : pattern) (subject : str) : list found :=
  iterate (2 * length subject + 2) p subject 0 false.

End Sre.

(** ** The main block of [find_log_entries.py] *)

(** One character constant. *)
Definition chr (a : ascii) : char := N_of_ascii a.

(** [rx_regex_arg]: three groups, [^\s*/] then [.*] then [/\s*$]. *)
Definition rx_regex_arg : Sre.pattern :=
  [Sre.Open 1; Sre.Bol false; Sre.Rep Py_UNICODE_ISSPACE 0;
   Sre.Lit (chr "/"); Sre.Close 1;
   Sre.Open 2; Sre.Rep Sre.dot 0; Sre.Close 2;
   Sre.Open 3; Sre.Lit (chr "/"); Sre.Rep Py_UNICODE_ISSPACE 0;
   Sre.Eol false; Sre.Close 3].

(** Lines 82-84: [rx_regex_arg.match(arg)], and [match.groups()[1]] when
    it matches. *)
Definition regex_arg (arg : str) : option (option str) :=
  match Sre.rmatch rx_regex_arg arg with
  | Some m => Some (Sre.group (Sre.f_caps m) 2)
  | None => None
  end.

(** How the script ends when it does not run to its end. *)
Inductive failure : Type :=
| PatternError : failure        (* [re.compile] raised *)
| OpenError : failure           (* [open] raised *)
| WalkError : failure           (* [next(os.walk(log_home))] raised *)
| Aborted : exn -> failure.     (* [aggregate_entries] raised *)

(** [str(n)] for a line number. *)
Definition str_of_nat (n : nat) : str :=
  py (NilZero.string_of_uint (Nat.to_uint n)).

Definition log_home : str := py "/home/anders/src/java/gf311_domain/logs".

(** Line 98: [filename + ' (line ' + str(n) + ')']. *)
Definition header (filename : str) (n : nat) : str :=
  filename ++ py " (line " ++ str_of_nat n ++ py ")".

(** Lines 98-103: what the four [print] calls write for one match. *)
Definition print_match (filename : str) (e : entry) : str :=
  header filename (fst e) ++ [NEWLINE] ++
  repeat (chr "=") (length (header filename (fst e))) ++ [NEWLINE] ++
  concat (snd e) ++ [NEWLINE].

Section Main.

Context {R : Type} `{Searchable R}.

(** [re.compile] on the text of a pattern; [None] when it raises. *)
Variable compile : str -> option R.

(** The lines [open(filename)] iterates over; [None] when it raises. *)
Variable open_lines : str -> option (list str).

(** The file names [next(os.walk(log_home))[2]] lists; [None] when it
    raises. *)
Variable walk : option (list str).

(** Lines 81-87: the loop over [sys.argv[1:]]. *)
Fixpoint parse_args (args : list str) (regexes : list R)
  (filenames : list str) : failure + (list R * list str) :=
  match args with
  | [] => inr (regexes, filenames)
  | arg :: args' =>
      match regex_arg arg with
      | Some (Some regex) =>
          match compile regex with
          | Some r => parse_args args' (regexes ++ [r]) filenames
          | None => inl PatternError
          end
      | Some None => inl PatternError
      | None => parse_args args' regexes (filenames ++ [arg])
      end
  end.

(** Lines 88-91: the files of [log_home] when no file name was given. *)
Definition default_filenames (filenames : list str)
  : failure + list str :=
  match filenames with
  | [] =>
      match walk with
      | Some names => inr (map (fun n => log_home ++ [chr "/"] ++ n) names)
      | None => inl WalkError
      end
  | _ :: _ => inr filenames
  end.

(** Lines 94-103 for one file: what is printed, and the failure that
    stopped it if one did. *)
Definition report_file (regexes : list R) (filename : str)
  : str * option failure :=
  match open_lines filename with
  | None => ([], Some OpenError)
  | Some lines =>
      let (ys, end_) := aggregate_entries lines in
      (flat_map (print_match filename)
         (filter (make_regex_filter regexes) ys),
       match end_ with
       | Returned => None
       | Raised x => Some (Aborted x)
       end)
  end.

(** Lines 93-103: the loop over the files. *)
Fixpoint report_files (regexes : list R) (filenames : list str)
  : str * option failure :=
  match filenames with
  | [] => ([], None)
  | filename :: filenames' =>
      match report_file regexes filename with
      | (out, Some x) => (out, Some x)
      | (out, None) =>
          let (out', r) := report_files regexes filenames' in
          (out ++ out', r)
      end
  end.

(** Lines 78-103: the script after the usage test, on [sys.argv[1:]]. *)
Definition run (args : list str) : str * option failure :=
  match parse_args args [] [] with
  | inl x => ([], Some x)
  | inr (regexes, filenames) =>
      match default_filenames filenames with
      | inl x => ([], Some x)
      | inr filenames' => report_files regexes filenames'
      end
  end.

End Main.

(** The arguments the loop takes as file names, and the texts of those it
    takes as patterns. *)
Definition is_filename (arg : str) : bool :=
  match regex_arg arg with
  | None => true
  | Some _ => false
  end.

Definition pattern_texts (args : list str) : list str :=
  flat_map (fun arg =>
              match regex_arg arg with
              | Some (Some text) => [text]
              | _ => []
              end) args.

(** All the texts compiled, in order; [None] when one of them is not. *)
Fixpoint compile_all {R : Type} (compile : str -> option R)
  (texts : list str) : option (list R) :=
  match texts with
  | [] => Some []
  | text :: texts' =>
      match compile text with
      | Some r =>
          match compile_all compile texts' with
          | Some rs => Some (r :: rs)
          | None => None
          end
      | None => None
      end
  end.

(** ** [git_lint.py] *)

(** Line 37: [next(re.finditer('\w*', output)).group()]; [None] stands for
    [StopIteration]. The class [\w] is a parameter. *)
Definition commit_hash_of (is_word : char -> bool) (output : str)
  : option str :=
  match Sre.finditer [Sre.Rep is_word 0] output with
  | m :: _ => Some (Sre.whole output m)
  | [] => None
  end.

(** Line 64: [re.finditer(r'^.*\.py', output, re.M)], and [match.group()]
    of each. *)
Definition rx_py_file : Sre.pattern :=
  [Sre.Bol true; Sre.Rep Sre.dot 0;
   Sre.Lit (chr "."); Sre.Lit (chr "p"); Sre.Lit (chr "y")].

Definition modified_files_in_commit_of (output : str) : list str :=
  map (Sre.whole output) (Sre.finditer rx_py_file output).

(** A pylint complaint, as [lint_problems] yields it. *)
Record problem : Type := mkProblem {
  p_filename : str;
  p_linenumber : nat;
  p_flags : str;
  p_message : str
}.

(** Line 142: ['{0[linenumber]}: {0[message]}'.format(problem)]. *)
Definition problem_line (pr : problem) : str :=
  str_of_nat (p_linenumber pr) ++ py ": " ++ p_message pr.

(** Lines 133-142: the lines printed for one file, given the modified
    line numbers and the complaints; [filename_printed] is the flag. *)
Fixpoint print_problems (line_nums : list nat) (problems : list problem)
  (filename_printed : bool) : list str :=
  match problems with
  | [] => []
  | pr :: problems' =>
      if existsb (Nat.eqb (p_linenumber pr)) line_nums then
        (if filename_printed then []
         else [[]; p_filename pr; repeat (chr "=") 40]) ++
        problem_line pr :: print_problems line_nums problems' true
      else print_problems line_nums problems' filename_printed
  end.

(** The text cut at its newlines: the first line and those after it. *)
Fixpoint split_lines (s : str) : str * list str :=
  match s with
  | [] => ([], [])
  | c :: s' =>
      let (l, more) := split_lines s' in
      if (c =? NEWLINE)%N then ([], l :: more) else (c :: l, more)
  end.

(** The longest prefix of a line that ends with [.py]. *)
Fixpoint py_prefix (line : str) : option str :=
  match line with
  | [] => None
  | c :: line' =>
      match py_prefix line' with
      | Some x => Some (c :: x)
      | None => if startswith (py ".py") line then Some (py ".py") else None
      end
  end.

Definition py_names (ls : list str) : list str :=
  flat_map (fun l => match py_prefix l with Some x => [x] | None => [] end) ls.

(** The lines after the first, each behind its newline. *)
Definition join_after (more : list str) : str :=
  concat (map (cons NEWLINE) more).

(** What one line contributes to the matches of a scan that works line
    by line. *)
(** What a scan that works line by line gives for one line: [hit] tells
    how long the match in the line is and its groups, [out] what is taken
    from it. *)
Definition line_out {A : Type} (hit : str -> option (nat * list (nat * str)))
  (out : str -> nat -> list (nat * str) -> A) (l : str) : list A :=
  match hit l with
  | Some (k, caps) => [out l k caps]
  | None => []
  end.

(** ** git_lint: the modified lines of a file *)

(** Line 72: [commit_hash or ('0' * 40)]. *)
Definition effective_hash (commit_hash : option str) : str :=
  match commit_hash with
  | Some (c :: h) => c :: h
  | Some [] => repeat (chr "0") 40
  | None => repeat (chr "0") 40
  end.

(** The characters with a meaning of their own in a pattern. *)
Definition metachars : str := py ".^$*+?{}[]\|()".

(** A character that stands for itself in a pattern and stays on its
    line. *)
Definition plain (c : char) : bool :=
  Sre.dot c && negb (existsb (N.eqb c) metachars).

(** The decimal digits of ASCII and [int] on them. *)
Definition ascii_digit (c : char) : bool := ((48 <=? c) && (c <=? 57))%N.

Definition ascii_int (text : str) : nat :=
  fold_left (fun n c => 10 * n + (N.to_nat c - 48)) text 0.

Section Blame.

(** [Py_UNICODE_ISDECIMAL], the class [\d] of a pattern over [str]. *)
Variable isdecimal : char -> bool.

(** [int] on a text. *)
Variable A : Type.
Variable int : str -> A.

(** Line 80: the pattern [^HASH \d+ (\d+)], for a hash of plain
    characters. *)
Definition rx_blame (hash : str) : Sre.pattern :=
  Sre.Bol true :: map Sre.Lit hash ++
  [Sre.Lit (chr " "); Sre.Rep isdecimal 1; Sre.Lit (chr " ");
   Sre.Open 1; Sre.Rep isdecimal 1; Sre.Close 1].

(** Lines 79-81: [int(match.group(1))] for each match; [None] stands for
    the [TypeError] of [int(None)]. *)
Definition modified_line_nums_of (commit_hash : option str) (output : str)
  : list (option A) :=
  map (fun m => option_map int (Sre.group (Sre.f_caps m) 1))
    (Sre.finditer (rx_blame (effective_hash commit_hash)) output).

(** A line of the blame that starts with the hash, a space, a number, a
    space and a second number: how far the second number reaches, and its
    digits. *)
Definition blame_digits (hash line : str) : option (nat * str) :=
  if startswith hash line then
    match skipn (length hash) line with
    | s1 :: r1 =>
        if (chr " " =? s1)%N && (1 <=? Sre.span isdecimal r1) then
          match skipn (Sre.span isdecimal r1) r1 with
          | s2 :: r2 =>
              if (chr " " =? s2)%N && (1 <=? Sre.span isdecimal r2) then
                Some (length hash + 1 + Sre.span isdecimal r1 + 1
                      + Sre.span isdecimal r2,
                      firstn (Sre.span isdecimal r2) r2)
              else None
          | [] => None
          end
        else None
    | [] => None
    end
  else None.

End Blame.

(** ** git_lint: the files modified locally *)

(** The class [[AMCRU]]. *)
Definition status_letter (c : char) : bool := existsb (N.eqb c) (py "AMCRU").

(** Line 48: the pattern under MULTILINE. At the start of a line: white
    space, one or more of the letters, white space, and group 1, which is
    [.*\.py]. *)
Definition rx_status : Sre.pattern :=
  [Sre.Bol true; Sre.Rep Py_UNICODE_ISSPACE 0; Sre.Rep status_letter 1;
   Sre.Rep Py_UNICODE_ISSPACE 0;
   Sre.Open 1; Sre.Rep Sre.dot 0;
   Sre.Lit (chr "."); Sre.Lit (chr "p"); Sre.Lit (chr "y"); Sre.Close 1].

(** Lines 48-49: [match.group(1)] of each match. *)
Definition modified_uncommited_files_of (output : str) : list (option str) :=
  map (fun m => Sre.group (Sre.f_caps m) 1) (Sre.finditer rx_status output).

(** ** git_lint: the complaints of pylint *)

(** The classes [[^ :]] and [[^\]]]. *)
Definition name_char (c : char) : bool :=
  negb (existsb (N.eqb c) (py " :")).

Definition flag_char (c : char) : bool := negb (c =? chr "]")%N.

Section Lint.

Variable isdecimal : char -> bool.
Variable A : Type.
Variable int : str -> A.

(** Lines 106-114: the pattern under MULTILINE and VERBOSE. At the start
    of a line: group 1, one or more characters other than space and
    colon; a colon; group 2, one or more digits; a colon, white space and
    an opening bracket; group 3, characters other than the closing
    bracket; the closing bracket and white space; group 4, the rest of
    the line. *)
Definition pylint_regex : Sre.pattern :=
  [Sre.Bol true;
   Sre.Open 1; Sre.Rep name_char 1; Sre.Close 1;
   Sre.Lit (chr ":");
   Sre.Open 2; Sre.Rep isdecimal 1; Sre.Close 2;
   Sre.Lit (chr ":"); Sre.Rep Py_UNICODE_ISSPACE 0; Sre.Lit (chr "[");
   Sre.Open 3; Sre.Rep flag_char 0; Sre.Close 3;
   Sre.Lit (chr "]"); Sre.Rep Py_UNICODE_ISSPACE 0;
   Sre.Open 4; Sre.Rep Sre.dot 0; Sre.Close 4].

(** Lines 116-122: the four groups of each match, the second through
    [int]; a group that took no part is [None], and for the second
    [None] stands for the [TypeError] of [int(None)]. *)
Definition lint_problems_of (output : str)
  : list (option (option str * A * option str * option str)) :=
  map (fun m =>
         match Sre.group (Sre.f_caps m) 2 with
         | Some linenumber =>
             Some (Sre.group (Sre.f_caps m) 1, int linenumber,
                   Sre.group (Sre.f_caps m) 3, Sre.group (Sre.f_caps m) 4)
         | None => None
         end)
    (Sre.finditer pylint_regex output).

End Lint.

(** ** git_lint: the hash of the script *)

(** Line 125: [commit_hash(sys.argv[1]) if len(sys.argv) > 1 else None];
    the outer [None] stands for [StopIteration], [git_show] for the output
    of [git show] on a reference. *)
Definition hash_ (is_word : char -> bool) (git_show : str -> str)
  (argv : list str) : option (option str) :=
  match argv with
  | _ :: ref :: _ => option_map Some (commit_hash_of is_word (git_show ref))
  | _ => Some None
  end.

(** The word characters of ASCII. *)
Definition ascii_word (c : char) : bool :=
  ((48 <=? c) && (c <=? 57) || (65 <=? c) && (c <=? 90) || (c =? 95) ||
   (97 <=? c) && (c <=? 122))%N.

Arguments MAX_BUFFER : simpl never.

(** * Theory *)

(** ** Patterns and their languages *)

Lemma lang_cat_inv (r1 r2 : regex) (w : str) :
  lang (Cat r1 r2) w -> exists w1 w2, w = w1 ++ w2 /\ lang r1 w1 /\ lang r2 w2.
Proof. intro Hx. inversion Hx; subst. eauto. Qed.

Lemma nullable_spec (r : regex) : nullable r = true <-> lang r [].
Proof.
  induction r as [ | | d | | r1 IH1 r2 IH2 | r1 IH1 r2 IH2 | r1 IH1]; simpl.
  - split; [discriminate | intro Hx; inversion Hx].
  - split; [constructor | reflexivity].
  - split; [discriminate | intro Hx; inversion Hx].
  - split; [discriminate | intro Hx; inversion Hx].
  - rewrite andb_true_iff, IH1, IH2. split.
    + intros [L1 L2]. change (@nil char) with (@nil char ++ []).
      now constructor.
    + intro Hx. apply lang_cat_inv in Hx as (w1 & w2 & E & L1 & L2).
      symmetry in E. apply app_eq_nil in E as [-> ->]. now split.
  - rewrite orb_true_iff, IH1, IH2. split.
    + intros [L | L]; [now apply lang_alt_l | now apply lang_alt_r].
    + intro Hx. inversion Hx; subst; [now left | now right].
  - split; [constructor | reflexivity].
Qed.

(** A non-empty word of a starred pattern begins with a non-empty word of
    the pattern itself. *)
Lemma star_cons_inv (r : regex) (c : char) (w : str) :
  lang (Star r) (c :: w) ->
  exists w1 w2, w = w1 ++ w2 /\ lang r (c :: w1) /\ lang (Star r) w2.
Proof.
  intro Hx. remember (Star r) as sr eqn:Esr. remember (c :: w) as cw eqn:Ecw.
  revert w Ecw.
  induction Hx as [ | | | | | | | r' w1 w2 L1 _ L2 IH2]; intros u Ecw;
    try discriminate.
  injection Esr as ->.
  destruct w1 as [| d w1'].
  - simpl in Ecw. now apply IH2.
  - simpl in Ecw. injection Ecw as -> <-.
    now exists w1', w2.
Qed.

Lemma deriv_spec (c : char) (r : regex) (w : str) :
  lang (deriv c r) w <-> lang r (c :: w).
Proof.
  revert w. induction r as [ | | d | | r1 IH1 r2 IH2 | r1 IH1 r2 IH2 | r1 IH1];
    intro w; simpl.
  - split; intro Hx; inversion Hx.
  - split; intro Hx; inversion Hx.
  - destruct (N.eqb_spec c d) as [-> | Hne]; split; intro Hx.
    + inversion Hx; subst. constructor.
    + inversion Hx; subst. constructor.
    + inversion Hx.
    + inversion Hx; subst. now contradiction Hne.
  - destruct (N.eqb_spec c NEWLINE) as [-> | Hne]; split; intro Hx.
    + inversion Hx.
    + inversion Hx; subst. congruence.
    + inversion Hx; subst. now constructor.
    + inversion Hx; subst. constructor.
  - assert (Hcat : lang (Cat (deriv c r1) r2) w -> lang (Cat r1 r2) (c :: w)).
    { intro Hx. apply lang_cat_inv in Hx as (w1 & w2 & -> & L1 & L2).
      change (c :: w1 ++ w2) with ((c :: w1) ++ w2).
      constructor; [now apply IH1 | assumption]. }
    assert (Hinv : lang (Cat r1 r2) (c :: w) ->
                   lang (Cat (deriv c r1) r2) w \/
                   (lang r1 [] /\ lang (deriv c r2) w)).
    { intro Hx. apply lang_cat_inv in Hx as (w1 & w2 & E & L1 & L2).
      destruct w1 as [| d w1']; simpl in E.
      - subst w2. right. split; [assumption | now apply IH2].
      - injection E as <- ->. left. constructor; [now apply IH1 | assumption]. }
    destruct (nullable r1) eqn:En; split; intro Hx.
    + inversion Hx; subst; [now apply Hcat |].
      change (c :: w) with ([] ++ c :: w).
      constructor; [now apply nullable_spec | now apply IH2].
    + destruct (Hinv Hx) as [Hl | [_ Hr]];
        [now apply lang_alt_l | now apply lang_alt_r].
    + now apply Hcat.
    + destruct (Hinv Hx) as [Hl | [Hn _]]; [assumption |].
      apply nullable_spec in Hn. congruence.
  - split; intro Hx; inversion Hx; subst;
      solve [apply lang_alt_l; now apply IH1 | apply lang_alt_r; now apply IH2].
  - split; intro Hx.
    + apply lang_cat_inv in Hx as (w1 & w2 & -> & L1 & L2).
      change (c :: w1 ++ w2) with ((c :: w1) ++ w2).
      constructor; [now apply IH1 | assumption].
    + apply star_cons_inv in Hx as (w1 & w2 & -> & L1 & L2).
      constructor; [now apply IH1 | assumption].
Qed.

(** [match] succeeds exactly when a prefix of the subject is in the
    language. *)
Lemma re_match_spec (r : regex) (s : str) :
  re_match r s = true <-> exists p q, s = p ++ q /\ lang r p.
Proof.
  revert r. induction s as [| c s IH]; intro r; simpl.
  - rewrite orb_false_r, nullable_spec. split.
    + intro Hn. now exists [], [].
    + intros (p & q & E & L). symmetry in E.
      apply app_eq_nil in E as [-> _]. assumption.
  - rewrite orb_true_iff, nullable_spec, IH. split.
    + intros [Hn | (p & q & -> & L)].
      * now exists [], (c :: s).
      * exists (c :: p), q. split; [reflexivity | now apply deriv_spec].
    + intros (p & q & E & L). destruct p as [| d p].
      * now left.
      * simpl in E. injection E as <- ->. right.
        exists p, q. split; [reflexivity | now apply deriv_spec].
Qed.

(** [search] succeeds exactly when some factor of the subject is in the
    language. *)
Lemma re_search_spec (r : regex) (s : str) :
  re_search r s = true <-> exists a p q, s = a ++ p ++ q /\ lang r p.
Proof.
  induction s as [| c s IH]; cbn [re_search].
  - rewrite orb_false_r, re_match_spec. split.
    + intros (p & q & E & L). now exists [], p, q.
    + intros (a & p & q & E & L). symmetry in E.
      apply app_eq_nil in E as [-> E]. simpl in E. now exists p, q.
  - rewrite orb_true_iff, re_match_spec, IH. split.
    + intros [(p & q & E & L) | (a & p & q & -> & L)].
      * now exists [], p, q.
      * now exists (c :: a), p, q.
    + intros (a & p & q & E & L). destruct a as [| d a].
      * left. now exists p, q.
      * simpl in E. injection E as <- ->. right. now exists a, p, q.
Qed.

Lemma lang_literal (n w : str) : lang (literal n) w <-> w = n.
Proof.
  revert w. induction n as [| c n IH]; intro w; simpl; split; intro Hx.
  - now inversion Hx.
  - subst. constructor.
  - apply lang_cat_inv in Hx as (w1 & w2 & -> & L1 & L2).
    inversion L1; subst. apply IH in L2. now subst.
  - subst. change (c :: n) with ([c] ++ n).
    constructor; [constructor | now apply IH].
Qed.

Lemma startswith_spec (n s : str) :
  startswith n s = true <-> exists q, s = n ++ q.
Proof.
  revert s. induction n as [| a n IH]; intros [| b s]; simpl.
  - split; [now exists [] | reflexivity].
  - split; [now exists (b :: s) | reflexivity].
  - split; [discriminate | intros (q & E); discriminate].
  - rewrite andb_true_iff, N.eqb_eq, IH. split.
    + intros (-> & q & ->). now exists q.
    + intros (q & E). injection E as -> ->. split; [reflexivity | now exists q].
Qed.

(** [needle in hay]: the needle is a factor of the haystack. *)
Lemma contains_spec (n s : str) :
  contains n s = true <-> exists p q, s = p ++ n ++ q.
Proof.
  induction s as [| c s IH]; cbn [contains].
  - rewrite orb_false_r, startswith_spec. split.
    + intros (q & E). now exists [], q.
    + intros (p & q & E). symmetry in E.
      apply app_eq_nil in E as [-> E]. now exists q.
  - rewrite orb_true_iff, startswith_spec, IH. split.
    + intros [(q & E) | (p & q & ->)].
      * now exists [], q.
      * now exists (c :: p), q.
    + intros (p & q & E). destruct p as [| d p].
      * left. now exists q.
      * simpl in E. injection E as <- ->. right. now exists p, q.
Qed.

(** Searching for a pattern without metacharacters is substring search. *)
Lemma search_literal (n s : str) : re_search (literal n) s = contains n s.
Proof.
  apply eq_true_iff_eq. rewrite re_search_spec, contains_spec. split.
  - intros (a & p & q & -> & L). apply lang_literal in L as ->. now exists a, q.
  - intros (p & q & ->). exists p, n, q. split; [reflexivity | now apply lang_literal].
Qed.

(** ** The end-sentinel pattern *)

Lemma lang_star_dot (p : str) : lang (Star Dot) p <-> ~ In NEWLINE p.
Proof.
  split.
  - intro Hx. remember (Star Dot) as sd eqn:E.
    induction Hx as [ | | | | | | | r w1 w2 L1 _ L2 IH2]; try discriminate.
    + intros [].
    + injection E as ->. inversion L1; subst.
      intros [Hc | Hin]; [congruence | now apply IH2].
  - induction p as [| c p IH]; intro Hn.
    + constructor.
    + change (c :: p) with ([c] ++ p). constructor.
      * constructor. intro Hc. apply Hn. now left.
      * apply IH. intro Hin. apply Hn. now right.
Qed.

Lemma lang_rx_end (w : str) :
  lang rx_end w <-> exists p, w = p ++ END_SENTINEL /\ ~ In NEWLINE p.
Proof.
  unfold rx_end. split.
  - intro Hx.
    apply lang_cat_inv in Hx as (p & w1 & -> & Lp & L1).
    apply lang_cat_inv in L1 as (a & w2 & -> & La & L2).
    apply lang_cat_inv in L2 as (b & c & -> & Lb & Lc).
    inversion La; inversion Lb; inversion Lc; subst.
    exists p. split; [reflexivity | now apply lang_star_dot].
  - intros (p & -> & Hn). constructor; [now apply lang_star_dot |].
    change END_SENTINEL with ([124%N] ++ [35%N] ++ [93%N]).
    repeat constructor.
Qed.

(** [rx_end.match(line)] succeeds exactly when [|#]] occurs in the line
    with no newline before it. *)
Lemma rx_end_match_spec (s : str) :
  re_match rx_end s = true <->
  exists p q, s = p ++ END_SENTINEL ++ q /\ ~ In NEWLINE p.
Proof.
  rewrite re_match_spec. split.
  - intros (w & q & -> & L). apply lang_rx_end in L as (p & -> & Hn).
    exists p, q. now rewrite <- app_assoc.
  - intros (p & q & -> & Hn). exists (p ++ END_SENTINEL), q.
    split; [now rewrite <- app_assoc | apply lang_rx_end; now exists p].
Qed.

Lemma rx_end_match_contains (s : str) :
  re_match rx_end s = true -> contains END_SENTINEL s = true.
Proof.
  rewrite rx_end_match_spec, contains_spec.
  intros (p & q & E & _). now exists p, q.
Qed.

(** A line that matches the end-sentinel pattern has a character that is
    not whitespace. *)
Lemma rx_end_match_not_all_space (s : str) :
  re_match rx_end s = true -> forallb Py_UNICODE_ISSPACE s = false.
Proof.
  intro Hm. apply rx_end_match_spec in Hm as (p & q & -> & _).
  rewrite forallb_app. apply andb_false_iff. right. reflexivity.
Qed.

Lemma rx_end_match_not_space (s : str) :
  re_match rx_end s = true -> isspace s = false.
Proof.
  intro Hm. apply rx_end_match_not_all_space in Hm.
  destruct s; [reflexivity | exact Hm].
Qed.

Lemma isspace_no_match (s : str) :
  isspace s = true -> re_match rx_end s = false.
Proof.
  intro Hs. destruct (re_match rx_end s) eqn:Hm; [| reflexivity].
  apply rx_end_match_not_space in Hm. congruence.
Qed.

(** For such a line, matching the pattern is containing the marker. *)
Lemma rx_end_match_line (s : str) :
  is_line s = true -> re_match rx_end s = contains END_SENTINEL s.
Proof.
  intro Hl. apply eq_true_iff_eq. split; [apply rx_end_match_contains |].
  rewrite contains_spec, rx_end_match_spec. intros (p & q & ->).
  exists p, q. split; [reflexivity |]. intro Hin.
  unfold is_line in Hl. apply negb_true_iff in Hl.
  assert (Hex : existsb (N.eqb NEWLINE) (removelast (p ++ END_SENTINEL ++ q)) = true).
  { rewrite removelast_app by discriminate.
    rewrite existsb_app. apply orb_true_iff. left.
    apply existsb_exists. exists NEWLINE. split; [assumption | apply N.eqb_refl]. }
  congruence.
Qed.

(** ** One iteration of the loop, case by case *)

Lemma MAX_BUFFER_pos : 0 < MAX_BUFFER.
Proof. unfold MAX_BUFFER. lia. Qed.

Lemma body_blank (n : nat) (l : str) (st : locals) :
  buffer st = [] -> isspace l = true -> body n l st = Continue st.
Proof.
  intros Hb Hs. unfold body, append_line, flush.
  rewrite Hb, Hs, (isspace_no_match l Hs). reflexivity.
Qed.

Lemma body_first (n : nat) (l : str) (st : locals) :
  buffer st = [] -> isspace l = false ->
  body n l st =
  if re_match rx_end l then Yield (n, [l]) (mkLocals [] (Some n))
  else Continue (mkLocals [l] (Some n)).
Proof.
  intros Hb Hs. unfold body, append_line, flush. rewrite Hb, Hs.
  cbn [length Nat.ltb Nat.leb orb negb Nat.eqb app].
  destruct (Nat.ltb_spec 0 MAX_BUFFER) as [_ | Hle];
    [| pose proof MAX_BUFFER_pos; lia].
  now destruct (re_match rx_end l).
Qed.

Lemma body_more (n : nat) (l : str) (st : locals) :
  buffer st <> [] -> length (buffer st) < MAX_BUFFER ->
  body n l st =
  if re_match rx_end l then
    match entry_line_no st with
    | Some k => Yield (k, buffer st ++ [l]) (mkLocals [] (Some k))
    | None => Raise UnboundLocalError
    end
  else Continue (mkLocals (buffer st ++ [l]) (entry_line_no st)).
Proof.
  intros Hb Hlt. unfold body, append_line, flush.
  destruct (buffer st) as [| b bs] eqn:E; [congruence |].
  rewrite <- E in *.
  assert (Hpos : 0 < length (buffer st)) by (rewrite E; simpl; lia).
  destruct (Nat.ltb_spec 0 (length (buffer st))) as [_ |]; [| lia].
  destruct (Nat.eqb_spec (length (buffer st)) 0) as [| _]; [lia |].
  destruct (Nat.ltb_spec (length (buffer st)) MAX_BUFFER) as [_ |]; [| lia].
  reflexivity.
Qed.

Lemma body_overflow (n : nat) (l : str) (st : locals) :
  MAX_BUFFER <= length (buffer st) -> body n l st = Raise AssertionError.
Proof.
  intro Hle. pose proof MAX_BUFFER_pos as Hpos.
  unfold body, append_line.
  destruct (Nat.ltb_spec 0 (length (buffer st))) as [_ |]; [| lia].
  destruct (Nat.ltb_spec (length (buffer st)) MAX_BUFFER) as [|_]; [lia |].
  reflexivity.
Qed.

(** ** The loop over runs of lines *)

Lemma loop_app (l1 l2 : list str) (n : nat) (st : locals) :
  loop n (l1 ++ l2) st =
  match loop n l1 st with
  | (ys, inr st1) =>
      let (zs, r) := loop (n + length l1) l2 st1 in (ys ++ zs, r)
  | (ys, inl x) => (ys, inl x)
  end.
Proof.
  revert n st. induction l1 as [| l l1 IH]; intros n st.
  - cbn [app loop length]. rewrite Nat.add_0_r.
    now destruct (loop n l2 st).
  - cbn [app loop length]. rewrite Nat.add_succ_r, <- Nat.add_succ_l.
    destruct (body n l st) as [st1 | e st1 | x]; [| | reflexivity].
    + apply IH.
    + rewrite IH. destruct (loop (S n) l1 st1) as [ys [x | st2]];
        [reflexivity |].
      now destruct (loop (S n + length l1) l2 st2).
Qed.

(** Blank lines on an empty buffer change nothing. *)
Lemma loop_blank_run (bs : list str) (n : nat) (st : locals) :
  buffer st = [] -> forallb isspace bs = true ->
  loop n bs st = ([], inr st).
Proof.
  revert n. induction bs as [| b bs IH]; intros n Hb Hs; [reflexivity |].
  cbn [forallb] in Hs. apply andb_true_iff in Hs as [Hs1 Hs2].
  cbn [loop]. rewrite body_blank by assumption. now apply IH.
Qed.

(** Lines without the sentinel pile up on a non-empty buffer while they
    fit in it. *)
Lemma loop_quiet (ls : list str) (n : nat) (st : locals) :
  buffer st <> [] -> quiet ls ->
  length (buffer st) + length ls <= MAX_BUFFER ->
  loop n ls st = ([], inr (mkLocals (buffer st ++ ls) (entry_line_no st))).
Proof.
  revert n st. induction ls as [| l ls IH]; intros n st Hb Hq Hlen.
  - cbn [loop]. rewrite app_nil_r. now destruct st.
  - cbn [length] in Hlen. inversion Hq as [| ? ? Hl Hq']; subst.
    cbn [loop]. rewrite body_more by (assumption || lia). rewrite Hl.
    rewrite IH; cbn [buffer entry_line_no].
    + now rewrite <- app_assoc.
    + now destruct (buffer st).
    + assumption.
    + rewrite length_app. cbn [length]. lia.
Qed.

(** A retained first line and what follows it, without a sentinel: the
    buffer holds the whole run, recorded at the ordinal of its first line. *)
Lemma loop_open (ls : list str) (n : nat) (st : locals) :
  buffer st = [] -> starts_retained ls = true -> quiet ls ->
  length ls <= MAX_BUFFER ->
  loop n ls st = ([], inr (mkLocals ls (Some n))).
Proof.
  intros Hb Hr Hq Hlen. destruct ls as [| l ls]; [discriminate |].
  cbn [starts_retained] in Hr. apply negb_true_iff in Hr.
  inversion Hq as [| ? ? Hl Hq']; subst. cbn [length] in Hlen.
  cbn [loop]. rewrite body_first by assumption. rewrite Hl.
  rewrite loop_quiet; cbn [buffer entry_line_no length];
    [reflexivity | discriminate | assumption | lia].
Qed.

(** A run that ends at its only sentinel line is yielded whole, with the
    ordinal of its first line, and leaves the buffer empty. *)
Lemma loop_entry (e : list str) (n : nat) (st : locals) :
  buffer st = [] -> entry_run e ->
  loop n e st = ([(n, e)], inr (mkLocals [] (Some n))).
Proof.
  intros Hb (ls & last & -> & Hq & Hm & Hr & Hlen).
  rewrite length_app in Hlen. cbn [length] in Hlen.
  destruct ls as [| l ls].
  - cbn [app starts_retained] in *. apply negb_true_iff in Hr.
    cbn [loop]. rewrite body_first by assumption. now rewrite Hm.
  - rewrite loop_app, loop_open; [| assumption | exact Hr | assumption | lia].
    cbn [loop]. rewrite body_more; cbn [buffer entry_line_no];
      [| discriminate | lia].
    now rewrite Hm.
Qed.

(** ** Well-formed entries and streams *)

Lemma sentinel_last_only_split (e : list str) :
  sentinel_last_only e = true -> forallb is_line e = true ->
  exists ls last,
    e = ls ++ [last] /\ quiet ls /\ re_match rx_end last = true.
Proof.
  induction e as [| l e IH]; [discriminate |].
  cbn [sentinel_last_only forallb]. intros Hs Hl.
  apply andb_true_iff in Hl as [Hl1 Hl2].
  destruct e as [| l' e'].
  - exists [], l. repeat split; [constructor |].
    now rewrite rx_end_match_line.
  - apply andb_true_iff in Hs as [Hn Hs].
    destruct (IH Hs Hl2) as (ls & last & E & Hq & Hm).
    exists (l :: ls), last. rewrite E. repeat split; [| assumption].
    constructor; [| assumption].
    rewrite rx_end_match_line by assumption.
    now apply negb_true_iff in Hn.
Qed.

Lemma well_formed_entry_run (e : list str) :
  well_formed_entry e = true -> entry_run e.
Proof.
  unfold well_formed_entry. intro Hw.
  apply andb_true_iff in Hw as [Hw Hlen].
  apply andb_true_iff in Hw as [Hw Hl].
  apply andb_true_iff in Hw as [Hs Hr].
  destruct (sentinel_last_only_split e Hs Hl) as (ls & last & E & Hq & Hm).
  exists ls, last. repeat split; try assumption.
  now apply Nat.leb_le.
Qed.

Lemma loop_compose (segs : list (list str * list str)) (trailing : list str)
  (n : nat) (st : locals) :
  buffer st = [] -> well_formed_stream segs trailing = true ->
  exists st', loop n (compose segs trailing) st = (located n segs, inr st')
              /\ buffer st' = [].
Proof.
  unfold well_formed_stream. revert n st.
  induction segs as [| [blanks e] segs IH]; intros n st Hb Hw;
    cbn [forallb compose located fst snd] in *.
  - exists st. split; [now apply loop_blank_run | assumption].
  - apply andb_true_iff in Hw as [Hw Ht].
    apply andb_true_iff in Hw as [Hw Hsegs].
    apply andb_true_iff in Hw as [Hbl He].
    apply well_formed_entry_run in He.
    destruct (IH (n + length blanks + length e) (mkLocals [] (Some (n + length blanks))))
      as (st' & Hloop & Hb'); [reflexivity | now rewrite Hsegs, Ht |].
    exists st'. split; [| assumption].
    rewrite loop_app, loop_blank_run by assumption.
    rewrite loop_app, loop_entry by assumption.
    now rewrite Hloop.
Qed.

(** ** The loop invariant *)

Lemma tracks_init : tracks [] init.
Proof. now left. Qed.

Lemma starts_retained_app (b ls : list str) :
  starts_retained b = true -> starts_retained (b ++ ls) = true.
Proof. now destruct b. Qed.

(** What one iteration does to a state that satisfies the invariant. *)
Lemma body_tracks (done : list str) (l : str) (st : locals) :
  tracks done st ->
  match body (S (length done)) l st with
  | Continue st1 =>
      tracks (done ++ [l]) st1 /\
      start_of done st <= start_of (done ++ [l]) st1
  | Yield e st1 =>
      buffer st1 = [] /\ fst e = start_of done st /\
      (exists x, done ++ [l] = x ++ snd e /\ fst e = S (length x)) /\
      entry_run (snd e)
  | Raise x => x = AssertionError
  end.
Proof.
  pose proof MAX_BUFFER_pos as Hpos. unfold start_of.
  intros [Hb | (x & Hd & Hn & Hr & Hq & Hlen)].
  - destruct (isspace l) eqn:Hs.
    + rewrite body_blank by assumption. split; [now left |].
      rewrite length_app. cbn [length]. lia.
    + rewrite body_first by assumption.
      destruct (re_match rx_end l) eqn:Hm; cbn [fst snd buffer].
      * rewrite Hb. cbn [length].
        split; [reflexivity |]. split; [lia |]. split; [now exists done |].
        exists [], l. cbn [app starts_retained length]. rewrite Hs.
        split; [reflexivity |]. split; [constructor |].
        split; [assumption |]. split; [reflexivity | lia].
      * split.
        -- right. exists done. cbn [buffer entry_line_no starts_retained].
           rewrite Hs. cbn [length].
           split; [reflexivity |]. split; [reflexivity |].
           split; [reflexivity |]. split; [| lia].
           constructor; [assumption | constructor].
        -- rewrite Hb, length_app. cbn [length]. lia.
  - destruct (Nat.lt_ge_cases (length (buffer st)) MAX_BUFFER) as [Hlt | Hge].
    + assert (Hne : buffer st <> []) by (now destruct (buffer st)).
      assert (Hlen_done : length done = length x + length (buffer st))
        by (rewrite Hd at 1; apply length_app).
      assert (Hdl : done ++ [l] = x ++ buffer st ++ [l])
        by (rewrite Hd at 1; now rewrite <- app_assoc).
      rewrite body_more by assumption. rewrite Hn.
      destruct (re_match rx_end l) eqn:Hm; cbn [fst snd buffer].
      * split; [reflexivity |]. split; [lia |].
        split; [now exists x |].
        exists (buffer st), l. rewrite length_app. cbn [length].
        split; [reflexivity |]. split; [assumption |].
        split; [assumption |].
        split; [now apply starts_retained_app | lia].
      * split.
        -- right. exists x. cbn [buffer entry_line_no].
           rewrite length_app. cbn [length].
           split; [assumption |]. split; [reflexivity |].
           split; [now apply starts_retained_app |]. split; [| lia].
           apply Forall_app. split; [assumption |].
           constructor; [assumption | constructor].
        -- rewrite !length_app. cbn [length]. lia.
    + now rewrite body_overflow.
Qed.

Lemma length_snoc (done : list str) (l : str) :
  S (length (done ++ [l])) = S (S (length done)).
Proof. rewrite length_app. cbn [length]. lia. Qed.

(** The invariant along the whole loop: what is yielded are entries of
    the stream at their ordinals, in ascending order, and the only
    exception possible is the failed assertion. *)
Lemma loop_sound (rest : list str) (done : list str) (st : locals)
  (ys : list entry) (r : exn + locals) :
  tracks done st -> loop (S (length done)) rest st = (ys, r) ->
  Forall (located_in (done ++ rest)) ys /\
  Forall (fun e => start_of done st <= fst e) ys /\
  StronglySorted lt (map fst ys) /\
  r <> inl UnboundLocalError /\
  (forall st', r = inr st' -> tracks (done ++ rest) st').
Proof.
  revert done st ys r. induction rest as [| l rest IH];
    intros done st ys r Ht Hloop; cbn [loop] in Hloop.
  - injection Hloop as <- <-. rewrite app_nil_r.
    split; [constructor |]. split; [constructor |]. split; [constructor |].
    split; [discriminate |]. intros st' E. now injection E as <-.
  - pose proof (body_tracks l Ht) as Hb.
    replace (done ++ l :: rest) with ((done ++ [l]) ++ rest)
      by (now rewrite <- app_assoc).
    destruct (body (S (length done)) l st) as [st1 | e st1 | x].
    + destruct Hb as [Ht1 Hle]. rewrite <- (length_snoc done l) in Hloop.
      destruct (IH _ _ _ _ Ht1 Hloop) as (H1 & H2 & H3 & H4 & H5).
      split; [assumption |]. split; [| now split].
      eapply Forall_impl; [| exact H2]. cbn beta. intros a Ha. lia.
    + destruct Hb as (Hb1 & Hstart & (x & Hx & Hfst) & Hrun).
      rewrite <- (length_snoc done l) in Hloop.
      destruct (loop (S (length (done ++ [l]))) rest st1) as [ys' r'] eqn:El.
      injection Hloop as <- <-.
      assert (Ht1 : tracks (done ++ [l]) st1) by now left.
      destruct (IH _ _ _ _ Ht1 El) as (H1 & H2 & H3 & H4 & H5).
      assert (Hlow : start_of (done ++ [l]) st1 = S (S (length done))).
      { unfold start_of. rewrite Hb1, length_snoc. cbn [length]. lia. }
      assert (Hup : fst e <= S (length done)).
      { rewrite Hstart. unfold start_of. lia. }
      split; [| split; [| split; [| now split]]].
      * constructor; [| assumption].
        exists x, rest. rewrite Hx, <- app_assoc. now split.
      * constructor; [lia |].
        eapply Forall_impl; [| exact H2]. cbn beta. intros a Ha. lia.
      * cbn [map]. constructor; [assumption |].
        apply Forall_map. eapply Forall_impl; [| exact H2].
        cbn beta. intros a Ha. lia.
    + injection Hloop as <- <-. subst x.
      split; [constructor |]. split; [constructor |]. split; [constructor |].
      split; [discriminate |]. intros st' E. discriminate.
Qed.

(** Specialised to the generator. *)
Lemma aggregate_sound (lines : list str) :
  Forall (located_in lines) (yields lines) /\
  StronglySorted lt (map fst (yields lines)) /\
  snd (aggregate_entries lines) <> Raised UnboundLocalError.
Proof.
  unfold yields, aggregate_entries.
  destruct (loop 1 lines init) as [ys r] eqn:El. cbn [fst snd].
  destruct (@loop_sound lines [] init ys r tracks_init El)
    as (H1 & _ & H3 & H4 & _).
  split; [assumption |]. split; [assumption |].
  destruct r as [x | st']; cbn [outcome_of]; [| discriminate].
  intro E. injection E as ->. now apply H4.
Qed.

(** ** Deciding the shape of a run *)

Lemma sentinel_free_quiet (ls : list str) :
  sentinel_free ls = true <-> quiet ls.
Proof.
  unfold sentinel_free, quiet. rewrite forallb_forall, Forall_forall.
  split; intros Hx l Hin; specialize (Hx l Hin).
  - now apply negb_true_iff in Hx.
  - now apply negb_true_iff.
Qed.

Lemma closes_at_last_split (e : list str) :
  closes_at_last e = true ->
  exists ls last,
    e = ls ++ [last] /\ quiet ls /\ re_match rx_end last = true.
Proof.
  induction e as [| l e IH]; [discriminate |].
  cbn [closes_at_last]. intro Hc. destruct e as [| l' e'].
  - exists [], l. split; [reflexivity |]. split; [constructor | assumption].
  - apply andb_true_iff in Hc as [Hn Hc].
    destruct (IH Hc) as (ls & last & E & Hq & Hm).
    exists (l :: ls), last. rewrite E.
    split; [reflexivity |]. split; [| assumption].
    constructor; [now apply negb_true_iff in Hn | assumption].
Qed.

Lemma is_entry_run_spec (e : list str) :
  is_entry_run e = true -> entry_run e.
Proof.
  unfold is_entry_run. intro Hw.
  apply andb_true_iff in Hw as [Hw Hlen].
  apply andb_true_iff in Hw as [Hc Hr].
  destruct (closes_at_last_split e Hc) as (ls & last & E & Hq & Hm).
  exists ls, last.
  split; [assumption |]. split; [assumption |]. split; [assumption |].
  split; [assumption | now apply Nat.leb_le].
Qed.

(** ** Runs after an arbitrary prefix *)

(** The generator on a stream cut in two, when the first part is consumed
    without error. *)
Lemma aggregate_app (pre rest : list str) (ys zs : list entry)
  (st : locals) (r : exn + locals) :
  loop 1 pre init = (ys, inr st) ->
  loop (S (length pre)) rest st = (zs, r) ->
  loop 1 (pre ++ rest) init = (ys ++ zs, r) /\
  aggregate_entries (pre ++ rest) = (ys ++ zs, outcome_of r).
Proof.
  intros Hpre Hrest. unfold aggregate_entries.
  rewrite loop_app, Hpre. cbn [Nat.add]. now rewrite Hrest.
Qed.

(** ** One iteration, in one equation *)

Lemma body_unfold (n : nat) (l : str) (st : locals) :
  body n l st =
  match buffer st with
  | [] =>
      if isspace l then Continue st
      else if re_match rx_end l then Yield (n, [l]) (mkLocals [] (Some n))
      else Continue (mkLocals [l] (Some n))
  | _ :: _ =>
      if length (buffer st) <? MAX_BUFFER then
        if re_match rx_end l then
          match entry_line_no st with
          | Some k => Yield (k, buffer st ++ [l]) (mkLocals [] (Some k))
          | None => Raise UnboundLocalError
          end
        else Continue (mkLocals (buffer st ++ [l]) (entry_line_no st))
      else Raise AssertionError
  end.
Proof.
  destruct (buffer st) as [| b bs] eqn:Eb.
  - destruct (isspace l) eqn:Hs.
    + now apply body_blank.
    + now apply body_first.
  - rewrite <- Eb.
    destruct (Nat.ltb_spec (length (buffer st)) MAX_BUFFER) as [Hlt | Hge].
    + apply body_more; [congruence | assumption].
    + now apply body_overflow.
Qed.

(** ** Moving a stream down by some lines *)

Lemma loop_shift (ls : list str) (n d : nat) (st st' : locals) :
  shifted d st st' ->
  fst (loop (n + d) ls st') = shift d (fst (loop n ls st)) /\
  outcome_of (snd (loop (n + d) ls st')) = outcome_of (snd (loop n ls st)).
Proof.
  revert n st st'. induction ls as [| l ls IH]; intros n st st' [Hb Hk].
  - now split.
  - cbn [loop]. rewrite !body_unfold, Hb.
    destruct (buffer st) as [| b bs] eqn:Eb.
    + destruct (isspace l).
      * apply (IH (S n)). split; [now rewrite Eb | now rewrite Eb].
      * destruct (re_match rx_end l).
        -- specialize (IH (S n) (mkLocals [] (Some n)) (mkLocals [] (Some (n + d)))).
           destruct IH as [IH1 IH2]; [split; [reflexivity | now intros []] |].
           cbn [Nat.add] in IH1, IH2.
           destruct (loop (S n) ls (mkLocals [] (Some n))) as [ys r].
           destruct (loop (S (n + d)) ls (mkLocals [] (Some (n + d)))) as [ys' r'].
           cbn [fst snd] in *. unfold shift in *. cbn [map fst snd].
           now rewrite IH1.
        -- apply (IH (S n)). split; [reflexivity |]. intros _.
           now exists n.
    + destruct Hk as (k & Hk1 & Hk2); [discriminate |].
      destruct (length (b :: bs) <? MAX_BUFFER); [| now split].
      rewrite Hk1, Hk2. destruct (re_match rx_end l).
      * specialize (IH (S n) (mkLocals [] (Some k)) (mkLocals [] (Some (k + d)))).
        destruct IH as [IH1 IH2]; [split; [reflexivity | now intros []] |].
        cbn [Nat.add] in IH1, IH2.
        destruct (loop (S n) ls (mkLocals [] (Some k))) as [ys r].
        destruct (loop (S (n + d)) ls (mkLocals [] (Some (k + d)))) as [ys' r'].
        cbn [fst snd] in *. unfold shift in *. cbn [map fst snd].
        now rewrite IH1.
      * apply (IH (S n)). split; [reflexivity |]. intros _.
        now exists k.
Qed.

(** * The claims *)

(** ** Segmentation of well-formed streams *)

Lemma located_entries (segs : list (list str * list str)) (n : nat) :
  map snd (located n segs) = map snd segs.
Proof.
  revert n. induction segs as [| [blanks e] segs IH]; intro n;
    [reflexivity |].
  cbn [located map snd]. now rewrite IH.
Qed.

(** C1, as amended. For every stream of Lines made of zero or more
    entries, each a run of at most 5000 lines that starts with a line that
    is not whitespace-only and whose last line, and only the last,
    contains the end-sentinel, with whitespace-only lines before, between
    and after them: [aggregate_entries] ends normally and yields exactly
    those entries in order, each paired with the 1-based ordinal of its
    first line. *)
Theorem segmentation_correct (segs : list (list str * list str))
  (trailing : list str) :
  well_formed_stream segs trailing = true ->
  aggregate_entries (compose segs trailing) = (located 1 segs, Returned) /\
  map snd (yields (compose segs trailing)) = map snd segs.
Proof.
  intro Hw.
  destruct (@loop_compose segs trailing 1 init eq_refl Hw) as (st' & Hl & _).
  assert (Hagg : aggregate_entries (compose segs trailing)
                 = (located 1 segs, Returned)).
  { unfold aggregate_entries. now rewrite Hl. }
  split; [assumption |].
  unfold yields. rewrite Hagg. apply located_entries.
Qed.

Lemma segmentation_correct_witness :
  let segs :=
    [([py " "; [9%N; 10%N]], [py "[#|2012-04-04..."; py "blablabla|#]"]);
     ([], [py "[#|2012-04-04..."; py "   "; py "blebleble|#]"])] in
  well_formed_stream segs [py "  "] = true /\
  aggregate_entries (compose segs [py "  "])
  = ([(3, [py "[#|2012-04-04..."; py "blablabla|#]"]);
      (5, [py "[#|2012-04-04..."; py "   "; py "blebleble|#]"])], Returned).
Proof.
  split; [reflexivity |].
  exact (proj1 (@segmentation_correct
    [([py " "; [9%N; 10%N]], [py "[#|2012-04-04..."; py "blablabla|#]"]);
     ([], [py "[#|2012-04-04..."; py "   "; py "blebleble|#]"])]
    [py "  "] eq_refl)).
Defined.

(** C1 as stated fails on an entry of 5001 lines: it is a run whose last
    line, and only the last, contains the end-sentinel, yet the assertion
    fails at its last line and nothing is yielded. *)
Lemma segmentation_unbounded_counterexample :
  let e := repeat (py "a") 5000 ++ [py "|#]"] in
  (sentinel_last_only e = true /\ starts_retained e = true /\
   forallb is_line e = true) /\
  located 1 [([], e)] = [(1, e)] /\
  aggregate_entries (compose [([], e)] []) = ([], Raised AssertionError).
Proof. vm_compute. repeat split. Qed.

(** ** The filter *)

Section FilterFacts.

Context {R : Type} `{Searchable R}.

(** The loop with its early exit computes the conjunction over the
    patterns of the disjunction over the lines. *)
Lemma make_regex_filter_forallb (regexes : list R) (e : entry) :
  make_regex_filter regexes e
  = forallb (fun regex => existsb (search regex) (snd e)) regexes.
Proof.
  induction regexes as [| regex regexes IH]; [reflexivity |].
  cbn [make_regex_filter forallb]. unfold any_line.
  destruct (existsb (search regex) (snd e)); [exact IH | reflexivity].
Qed.

(** C2. The predicate built by [make_regex_filter] accepts an entry
    exactly when every pattern of the set is found in at least one line
    of the entry (each pattern in a line of its own choice); with no
    pattern at all it accepts every entry. *)
Theorem conjunctive_filter (regexes : list R) (e : entry) :
  (make_regex_filter regexes e = true <->
   forall regex, In regex regexes ->
     exists l, In l (snd e) /\ search regex l = true) /\
  make_regex_filter (@nil R) e = true.
Proof.
  split; [| reflexivity].
  rewrite make_regex_filter_forallb, forallb_forall.
  split; intros Hx regex Hin.
  - now apply existsb_exists, Hx.
  - now apply existsb_exists, Hx.
Qed.

(** C6. The predicate built from a list of patterns and the one built
    from any permutation of that list give the same answer on every
    entry. *)
Theorem filter_order_independent (regexes regexes' : list R) (e : entry) :
  Permutation regexes regexes' ->
  make_regex_filter regexes e = make_regex_filter regexes' e.
Proof.
  intro Hp. induction Hp as [| r rs rs' _ IH | r1 r2 rs | rs1 rs2 rs3 _ IH1 _ IH2].
  - reflexivity.
  - cbn [make_regex_filter]. now rewrite IH.
  - cbn [make_regex_filter].
    now destruct (any_line r1 e), (any_line r2 e).
  - now rewrite IH1.
Qed.

End FilterFacts.

(** The patterns of the usage example, on one entry of two lines. *)
Lemma conjunctive_filter_witness :
  let e : entry := (1, [py "[#|2012|SEVERE|"; py "  NullPointerException|#]"]) in
  let rs := [literal (py "SEVERE"); literal (py "NullPointerException")] in
  make_regex_filter rs e = true /\
  make_regex_filter (rs ++ [literal (py "INFO")]) e = false /\
  (forall regex, In regex rs -> exists l, In l (snd e) /\ search regex l = true).
Proof.
  split; [reflexivity |]. split; [reflexivity |].
  apply (proj1 (conjunctive_filter
    [literal (py "SEVERE"); literal (py "NullPointerException")]
    (1, [py "[#|2012|SEVERE|"; py "  NullPointerException|#]"]))).
  reflexivity.
Defined.

Lemma filter_order_independent_witness :
  let e : entry := (1, [py "[#|2012|SEVERE|"; py "  NullPointerException|#]"]) in
  let a := literal (py "INFO") in
  let b := literal (py "SEVERE") in
  Permutation [a; b] [b; a] /\
  make_regex_filter [a; b] e = make_regex_filter [b; a] e.
Proof.
  split; [apply perm_swap |].
  apply (@filter_order_independent regex _
           [literal (py "INFO"); literal (py "SEVERE")]
           [literal (py "SEVERE"); literal (py "INFO")]).
  apply perm_swap.
Defined.

(** ** The sanity bound and the dangling tail *)

(** C3. After any prefix consumed without error that leaves the buffer
    empty: 5000 lines from a retained one on, none of them matching the
    sentinel pattern, are all buffered, and whatever line comes next, the
    assertion fails there and the generator ends with that error, having
    yielded only what the prefix yielded; while a run of at most 5000
    lines that closes at its only sentinel line is yielded, and the
    generator ends normally. *)
Theorem overflow_guard (pre : list str) (ys : list entry) (st : locals) :
  loop 1 pre init = (ys, inr st) -> buffer st = [] ->
  (forall run l post,
     starts_retained run = true -> sentinel_free run = true ->
     length run = MAX_BUFFER ->
     loop 1 (pre ++ run) init
     = (ys, inr (mkLocals run (Some (S (length pre))))) /\
     aggregate_entries (pre ++ run ++ l :: post)
     = (ys, Raised AssertionError)) /\
  (forall e, is_entry_run e = true ->
     aggregate_entries (pre ++ e) = (ys ++ [(S (length pre), e)], Returned)).
Proof.
  intros Hpre Hb. split.
  - intros run l post Hr Hq Hlen. apply sentinel_free_quiet in Hq.
    assert (Hrun : loop (S (length pre)) run st
                   = ([], inr (mkLocals run (Some (S (length pre)))))).
    { apply loop_open; [assumption | assumption | assumption | lia]. }
    split.
    + destruct (aggregate_app pre run Hpre Hrun) as [H1 _].
      now rewrite app_nil_r in H1.
    + assert (Hall : loop (S (length pre)) (run ++ l :: post) st
                     = ([], inl AssertionError)).
      { rewrite loop_app, Hrun. cbn [loop].
        rewrite body_overflow; [reflexivity | cbn [buffer]; lia]. }
      destruct (aggregate_app pre _ Hpre Hall) as [_ H2].
      now rewrite app_nil_r in H2.
  - intros e He. apply is_entry_run_spec in He.
    assert (Hrun : loop (S (length pre)) e st
                   = ([(S (length pre), e)],
                      inr (mkLocals [] (Some (S (length pre)))))).
    { now apply loop_entry. }
    now destruct (aggregate_app pre e Hpre Hrun) as [_ H2].
Qed.

Lemma overflow_guard_witness :
  aggregate_entries
    ([py "one|#]"] ++ repeat (py "a") 5000 ++ [py "late|#]"])
  = ([(1, [py "one|#]"])], Raised AssertionError) /\
  aggregate_entries ([py "one|#]"] ++ repeat (py "a") 4999 ++ [py "|#]"])
  = ([(1, [py "one|#]"])] ++ [(2, repeat (py "a") 4999 ++ [py "|#]"])],
     Returned).
Proof.
  pose proof (@overflow_guard [py "one|#]"] [(1, [py "one|#]"])]
                (mkLocals [] (Some 1)) eq_refl eq_refl) as [H1 H2].
  split.
  - apply (H1 (repeat (py "a") 5000) (py "late|#]") []);
      vm_compute; reflexivity.
  - apply (H2 (repeat (py "a") 4999 ++ [py "|#]"])).
    vm_compute. reflexivity.
Defined.

(** C4. After any prefix consumed without error that leaves the buffer
    empty, a tail of at most 5000 lines that starts with a retained line
    and has no line matching the sentinel pattern is buffered to the end
    of the stream and then dropped: the generator ends normally and has
    yielded exactly what the prefix alone yields. *)
Theorem dangling_tail_discarded (pre tail : list str) (ys : list entry)
  (st : locals) :
  loop 1 pre init = (ys, inr st) -> buffer st = [] ->
  starts_retained tail = true -> sentinel_free tail = true ->
  length tail <= MAX_BUFFER ->
  loop 1 (pre ++ tail) init
  = (ys, inr (mkLocals tail (Some (S (length pre))))) /\
  aggregate_entries (pre ++ tail) = (ys, Returned) /\
  aggregate_entries (pre ++ tail) = aggregate_entries pre.
Proof.
  intros Hpre Hb Hr Hq Hlen. apply sentinel_free_quiet in Hq.
  assert (Hrun : loop (S (length pre)) tail st
                 = ([], inr (mkLocals tail (Some (S (length pre)))))).
  { now apply loop_open. }
  destruct (aggregate_app pre tail Hpre Hrun) as [H1 H2].
  rewrite app_nil_r in H1, H2.
  split; [assumption |]. split; [assumption |].
  rewrite H2. unfold aggregate_entries. now rewrite Hpre.
Qed.

Lemma dangling_tail_discarded_witness :
  let pre := [py "  "; py "[#|one"; py "done|#]"; py " "] in
  let tail := [py "[#|two"; py "   "; py "never closed"] in
  aggregate_entries (pre ++ tail)
  = ([(2, [py "[#|one"; py "done|#]"])], Returned) /\
  loop 1 (pre ++ tail) init
  = ([(2, [py "[#|one"; py "done|#]"])], inr (mkLocals tail (Some 5))).
Proof.
  cbv zeta.
  pose proof (@dangling_tail_discarded
                [py "  "; py "[#|one"; py "done|#]"; py " "]
                [py "[#|two"; py "   "; py "never closed"]
                [(2, [py "[#|one"; py "done|#]"])] (mkLocals [] (Some 2))
                eq_refl eq_refl eq_refl eq_refl) as H.
  destruct H as (H1 & H2 & _); [vm_compute; lia |].
  split; [exact H2 | exact H1].
Defined.

(** Every buffer left at the end of a stream arises that way: it is the
    tail of the stream that follows a prefix which leaves the buffer
    empty, it starts with a retained line and has no sentinel line. *)
Lemma dangling_buffer_is_tail (lines : list str) (ys : list entry)
  (st : locals) :
  loop 1 lines init = (ys, inr st) -> buffer st <> [] ->
  exists pre st0,
    lines = pre ++ buffer st /\ loop 1 pre init = (ys, inr st0) /\
    buffer st0 = [] /\ starts_retained (buffer st) = true /\
    sentinel_free (buffer st) = true /\ length (buffer st) <= MAX_BUFFER.
Proof.
  revert ys st. induction lines as [| l ls IH] using rev_ind;
    intros ys st Hloop Hne.
  - injection Hloop as <- <-. now contradiction Hne.
  - rewrite loop_app in Hloop.
    destruct (loop 1 ls init) as [ys1 [x | st1]] eqn:E1; [discriminate |].
    cbn [loop] in Hloop. rewrite body_unfold in Hloop.
    destruct (buffer st1) as [| b bs] eqn:Eb.
    + destruct (isspace l) eqn:Hs.
      * injection Hloop as <- <-. congruence.
      * destruct (re_match rx_end l) eqn:Hm.
        -- injection Hloop as <- <-. now contradiction Hne.
        -- injection Hloop as <- <-. cbn [buffer] in *.
           exists ls, st1. rewrite app_nil_r.
           split; [reflexivity |]. split; [exact E1 |].
           split; [assumption |]. cbn [starts_retained sentinel_free forallb length].
           rewrite Hs, Hm. split; [reflexivity |]. split; [reflexivity |].
           pose proof MAX_BUFFER_pos. lia.
    + rewrite <- Eb in *.
      destruct (Nat.ltb_spec (length (buffer st1)) MAX_BUFFER) as [Hlt | Hge];
        [| discriminate].
      destruct (re_match rx_end l) eqn:Hm.
      * destruct (entry_line_no st1); [| discriminate].
        injection Hloop as <- <-. now contradiction Hne.
      * injection Hloop as <- <-. cbn [buffer] in *.
        destruct (IH ys1 st1 eq_refl) as (pre & st0 & E & Hp & Hb0 & Hr & Hq & Hl);
          [congruence |].
        exists pre, st0. rewrite app_nil_r.
        split; [rewrite E at 1; now rewrite <- app_assoc |].
        split; [assumption |]. split; [assumption |].
        split; [now apply starts_retained_app |].
        split.
        -- unfold sentinel_free in *. rewrite forallb_app, Hq.
           cbn [forallb]. now rewrite Hm.
        -- rewrite length_app. cbn [length]. lia.
Qed.

(** ** Blank and empty lines *)

(** C9. The empty string is not a blank line for [isspace], although it
    has no character that is not whitespace: arriving on an empty buffer
    it is retained and starts an entry recorded at its own ordinal, which
    is yielded with it as first line once the sentinel line arrives. *)
Theorem empty_line_retained (pre : list str) (ys : list entry) (st : locals) :
  loop 1 pre init = (ys, inr st) -> buffer st = [] ->
  (isspace [] = false /\ forallb Py_UNICODE_ISSPACE [] = true) /\
  loop 1 (pre ++ [[]]) init
  = (ys, inr (mkLocals [[]] (Some (S (length pre))))) /\
  (forall rest, is_entry_run ([] :: rest) = true ->
     aggregate_entries (pre ++ [] :: rest)
     = (ys ++ [(S (length pre), [] :: rest)], Returned)).
Proof.
  intros Hpre Hb. split; [now split |]. split.
  - assert (Hrun : loop (S (length pre)) [[]] st
                   = ([], inr (mkLocals [[]] (Some (S (length pre)))))).
    { cbn [loop]. now rewrite body_first by (assumption || reflexivity). }
    destruct (aggregate_app pre _ Hpre Hrun) as [H1 _].
    now rewrite app_nil_r in H1.
  - intros rest He. apply is_entry_run_spec in He.
    assert (Hrun : loop (S (length pre)) ([] :: rest) st
                   = ([(S (length pre), [] :: rest)],
                      inr (mkLocals [] (Some (S (length pre)))))).
    { now apply loop_entry. }
    now destruct (aggregate_app pre _ Hpre Hrun) as [_ H2].
Qed.

Lemma empty_line_retained_witness :
  loop 1 ([py "one|#]"; py " "] ++ [[]]) init
  = ([(1, [py "one|#]"])], inr (mkLocals [[]] (Some 3))) /\
  aggregate_entries ([py "one|#]"; py " "] ++ [[]; py "two|#]"])
  = ([(1, [py "one|#]"])] ++ [(3, [[]; py "two|#]"])], Returned).
Proof.
  pose proof (@empty_line_retained [py "one|#]"; py " "]
                [(1, [py "one|#]"])] (mkLocals [] (Some 1))
                eq_refl eq_refl) as (_ & H1 & H2).
  split; [exact H1 |]. apply (H2 [py "two|#]"]). reflexivity.
Defined.

Lemma shifted_empty (d : nat) (st : locals) :
  buffer st = [] -> shifted d st st.
Proof. intro Hb. split; [reflexivity | intro Hne; now contradiction Hne]. Qed.

(** C5, with the bound of the buffer made explicit. Whitespace-only
    lines that arrive on an empty buffer leave no trace: the state after
    them is the state before them, and the stream with them yields what
    the stream without them yields, the entries that follow recorded that
    many lines further down. So [N] blank lines and then a well-formed
    entry, of at most [MAX_BUFFER] lines, give that entry at ordinal
    [N + 1]. A whitespace-only line that arrives on a buffer that holds a
    line already and fewer than [MAX_BUFFER] lines is appended like any
    other, and it is among the lines of the entry yielded when its run
    closes with the sentinel within [MAX_BUFFER] lines. *)
Theorem blank_line_handling (pre blanks : list str) (ys : list entry)
  (st : locals) :
  loop 1 pre init = (ys, inr st) -> buffer st = [] ->
  forallb isspace blanks = true ->
  (loop 1 (pre ++ blanks) init = (ys, inr st) /\
   forall post, exists zs,
     yields (pre ++ post) = ys ++ zs /\
     yields (pre ++ blanks ++ post) = ys ++ shift (length blanks) zs /\
     snd (aggregate_entries (pre ++ blanks ++ post))
     = snd (aggregate_entries (pre ++ post))) /\
  (forall e, well_formed_entry e = true ->
     aggregate_entries (blanks ++ e) = ([(length blanks + 1, e)], Returned)) /\
  (forall n b st',
     buffer st' <> [] -> length (buffer st') < MAX_BUFFER ->
     isspace b = true ->
     body n b st' = Continue (mkLocals (buffer st' ++ [b]) (entry_line_no st'))) /\
  (forall head b tail,
     head <> [] -> isspace b = true ->
     is_entry_run (head ++ b :: tail) = true ->
     aggregate_entries (pre ++ blanks ++ head ++ b :: tail)
     = (ys ++ [(S (length pre) + length blanks, head ++ b :: tail)],
        Returned)).
Proof.
  intros Hpre Hb Hbl.
  assert (Hrun : loop (S (length pre)) blanks st = ([], inr st))
    by now apply loop_blank_run.
  split; [split |]; [| | split; [| split]].
  - destruct (aggregate_app pre blanks Hpre Hrun) as [H1 _].
    now rewrite app_nil_r in H1.
  - intro post. unfold yields, aggregate_entries.
    rewrite !loop_app, Hpre. cbn [Nat.add]. rewrite loop_app, Hrun.
    destruct (@loop_shift post (S (length pre)) (length blanks) st st
                (@shifted_empty (length blanks) st Hb)) as [H1 H2].
    destruct (loop (S (length pre)) post st) as [zs r].
    destruct (loop (S (length pre) + length blanks) post st) as [zs' r'].
    cbn [fst snd app] in *. exists zs.
    split; [reflexivity |]. split; [now rewrite H1 | assumption].
  - intros e He. apply well_formed_entry_run in He.
    unfold aggregate_entries.
    rewrite loop_app, loop_blank_run by (assumption || reflexivity).
    rewrite loop_entry by (assumption || reflexivity).
    now rewrite Nat.add_comm.
  - intros n b st' Hne Hlt Hs. rewrite body_more by assumption.
    now rewrite (isspace_no_match b Hs).
  - intros head b tail _ Hs He. apply is_entry_run_spec in He.
    assert (Hall : loop (S (length pre)) (blanks ++ head ++ b :: tail) st
                   = ([(S (length pre) + length blanks, head ++ b :: tail)],
                      inr (mkLocals [] (Some (S (length pre) + length blanks))))).
    { rewrite loop_app, Hrun. now rewrite loop_entry. }
    now destruct (aggregate_app pre _ Hpre Hall) as [_ H2].
Qed.

Lemma blank_line_handling_witness :
  let blanks := [py " "; [9%N; 10%N]; [160%N]] in
  let e := [py "[#|x"; py "  "; py "y|#]"] in
  aggregate_entries (blanks ++ e) = ([(3 + 1, e)], Returned) /\
  aggregate_entries ([py "one|#]"] ++ blanks ++ [py "[#|x"] ++ py "  " :: [py "y|#]"])
  = ([(1, [py "one|#]"])] ++ [(5, e)], Returned).
Proof.
  cbv zeta.
  pose proof (@blank_line_handling [py "one|#]"]
                [py " "; [9%N; 10%N]; [160%N]]
                [(1, [py "one|#]"])] (mkLocals [] (Some 1))
                eq_refl eq_refl eq_refl) as (_ & _ & _ & H4).
  pose proof (@blank_line_handling []
                [py " "; [9%N; 10%N]; [160%N]]
                [] init eq_refl eq_refl eq_refl) as (_ & H2 & _).
  split.
  - apply (H2 [py "[#|x"; py "  "; py "y|#]"]). reflexivity.
  - apply (H4 [py "[#|x"] (py "  ") [py "y|#]"]);
      [discriminate | reflexivity | reflexivity].
Defined.

(** C5 as stated fails for a whitespace-only line that arrives on a full
    buffer: 5000 lines are buffered, so at least one is, yet the line is
    not appended; the assertion fails, and nothing is yielded even when
    the sentinel line follows. *)
Lemma blank_line_on_full_buffer_counterexample :
  let run := repeat (py "a") 5000 in
  let st := mkLocals run (Some 1) in
  (loop 1 run init = ([], inr st) /\ buffer st <> [] /\
   isspace (py " ") = true) /\
  body (S (length run)) (py " ") st = Raise AssertionError /\
  aggregate_entries (run ++ [py " "]) = ([], Raised AssertionError) /\
  aggregate_entries (run ++ [py " "; py "|#]"]) = ([], Raised AssertionError).
Proof. vm_compute. repeat split. discriminate. Qed.

(** ** What is yielded, on any stream *)

Lemma located_in_nonempty (lines : list str) (e : entry) :
  located_in lines e -> snd e <> [] /\ 1 <= fst e.
Proof.
  intros (x & y & _ & Hfst & (ls & last & E & _)). split; [| lia].
  rewrite E. now destruct ls.
Qed.

(** C7. A line that matches the end-sentinel pattern is not
    whitespace-only, in either sense: [isspace] is false on it, and it has
    a character that is not whitespace. So when the sentinel test
    succeeds the line has just been appended and the buffer is not empty;
    and on every stream, every pair yielded has at least one line and
    carries the ordinal of its first line, the name [entry_line_no] being
    bound whenever the yield is reached. *)
Theorem sentinel_test_inert :
  (forall line, re_match rx_end line && isspace line = false) /\
  (forall line,
     re_match rx_end line && forallb Py_UNICODE_ISSPACE line = false) /\
  (forall n line st st1,
     append_line n line st = inr st1 -> re_match rx_end line = true ->
     buffer st1 <> []) /\
  (forall lines,
     Forall (fun e => snd e <> [] /\ 1 <= fst e /\ located_in lines e)
       (yields lines) /\
     snd (aggregate_entries lines) <> Raised UnboundLocalError).
Proof.
  split; [| split; [| split]].
  - intro line. destruct (re_match rx_end line) eqn:Hm; [| reflexivity].
    now apply rx_end_match_not_space.
  - intro line. destruct (re_match rx_end line) eqn:Hm; [| reflexivity].
    now apply rx_end_match_not_all_space.
  - intros n line st st1 Ha Hm. unfold append_line in Ha.
    rewrite (rx_end_match_not_space line Hm) in Ha.
    rewrite orb_true_r in Ha.
    destruct (length (buffer st) <? MAX_BUFFER); [| discriminate].
    injection Ha as <-. cbn [buffer]. now destruct (buffer st).
  - intro lines. destruct (aggregate_sound lines) as (H1 & _ & H3).
    split; [| assumption].
    eapply Forall_impl; [| exact H1]. cbn beta. intros e He.
    destruct (located_in_nonempty He) as [Ha Hb]. now repeat split.
Qed.

Lemma sentinel_test_inert_witness :
  buffer (mkLocals [py " |#]"] (Some 1)) <> [] /\
  yields [py " "; py " |#]"; py "|#]"] = [(2, [py " |#]"]); (3, [py "|#]"])].
Proof.
  destruct sentinel_test_inert as (_ & _ & H3 & _).
  split; [| reflexivity].
  apply (H3 1 (py " |#]") init (mkLocals [py " |#]"] (Some 1)));
    reflexivity.
Defined.

Lemma sorted_filter (f : entry -> bool) (ys : list entry) :
  StronglySorted lt (map fst ys) ->
  StronglySorted lt (map fst (filter f ys)).
Proof.
  induction ys as [| y ys IH]; intro Hs; [constructor |].
  cbn [map] in Hs. apply StronglySorted_inv in Hs as [Hs Hall].
  cbn [filter]. destruct (f y); [| now apply IH].
  cbn [map]. constructor; [now apply IH |].
  apply Forall_forall. intros n Hin.
  apply in_map_iff in Hin as (e & <- & Hin).
  apply filter_In in Hin as [Hin _].
  rewrite Forall_forall in Hall. apply Hall. now apply in_map.
Qed.

(** C8. On every stream the start ordinals of the pairs yielded one after
    the other are strictly increasing, and so are those of the pairs that
    pass the filter. *)
Theorem ascending_start_lines {R : Type} `{Searchable R}
  (regexes : list R) (lines : list str) :
  StronglySorted lt (map fst (yields lines)) /\
  StronglySorted lt (map fst (matching_entries regexes lines)).
Proof.
  destruct (aggregate_sound lines) as (_ & Hs & _).
  split; [assumption |]. unfold matching_entries. now apply sorted_filter.
Qed.

(** ** Only the two tests decide the boundaries *)

Lemma loop_class (ls ls' : list str) (n : nat) (st st' : locals) :
  map line_class ls = map line_class ls' -> same_shape st st' ->
  shape (fst (loop n ls st)) = shape (fst (loop n ls' st')) /\
  outcome_of (snd (loop n ls st)) = outcome_of (snd (loop n ls' st')).
Proof.
  revert ls' n st st'. induction ls as [| l ls IH];
    intros [| l' ls'] n st st' Hc [Hlen Hno]; try discriminate.
  - now split.
  - cbn [map] in Hc. unfold line_class at 1 3 in Hc.
    injection Hc as Hs Hm Hc.
    cbn [loop]. rewrite !body_unfold, <- Hs, <- Hm, <- Hno.
    destruct (buffer st) as [| b bs] eqn:Eb;
      destruct (buffer st') as [| b' bs'] eqn:Eb'; try discriminate.
    + destruct (isspace l).
      * apply IH; [assumption |]. split; [now rewrite Eb, Eb' | assumption].
      * destruct (re_match rx_end l).
        -- specialize (IH ls' (S n) (mkLocals [] (Some n)) (mkLocals [] (Some n)) Hc).
           destruct IH as [IH1 IH2]; [now split |].
           destruct (loop (S n) ls (mkLocals [] (Some n))) as [ys r].
           destruct (loop (S n) ls' (mkLocals [] (Some n))) as [ys' r'].
           cbn [fst snd] in *. unfold shape in *. cbn [map fst snd length].
           now rewrite IH1.
        -- apply IH; [assumption |]. now split.
    + rewrite <- Hlen.
      destruct (length (b :: bs) <? MAX_BUFFER); [| now split].
      destruct (re_match rx_end l).
      * destruct (entry_line_no st) as [k |]; [| now split].
        specialize (IH ls' (S n) (mkLocals [] (Some k)) (mkLocals [] (Some k)) Hc).
        destruct IH as [IH1 IH2]; [now split |].
        destruct (loop (S n) ls (mkLocals [] (Some k))) as [ys r].
        destruct (loop (S n) ls' (mkLocals [] (Some k))) as [ys' r'].
        cbn [fst snd] in *. unfold shape in *. cbn [map fst snd].
        rewrite !length_app, Hlen. cbn [length]. now rewrite IH1.
      * apply IH; [assumption |]. split; [| reflexivity].
        cbn [buffer]. rewrite !length_app, Hlen. reflexivity.
Qed.

(** C10. The start marker [[#|] plays no part in the segmentation. Two
    streams whose lines agree one by one on the whitespace test and on the
    end-sentinel test are cut at the same places and end the same way. A
    line that arrives on a non-empty buffer, whatever it contains, joins
    the entry in progress under the ordinal already recorded; a line that
    is not whitespace-only and arrives on an empty buffer, whatever it
    contains, starts an entry at its own ordinal; and a line that does not
    contain [|#]] is never followed by a yield. *)
Theorem start_marker_ignored :
  (forall ls ls',
     map line_class ls = map line_class ls' ->
     shape (yields ls) = shape (yields ls') /\
     snd (aggregate_entries ls) = snd (aggregate_entries ls')) /\
  (forall n l st,
     buffer st <> [] ->
     body n l st =
     if length (buffer st) <? MAX_BUFFER then
       flush l (mkLocals (buffer st ++ [l]) (entry_line_no st))
     else Raise AssertionError) /\
  (forall n l st,
     buffer st = [] -> isspace l = false ->
     body n l st = flush l (mkLocals [l] (Some n))) /\
  (forall n l st e st',
     contains END_SENTINEL l = false -> body n l st <> Yield e st') /\
  (buffer init = [] /\
   forall n l st e st', body n l st = Yield e st' -> buffer st' = []) /\
  (forall n l st st',
     body n l st = Continue st' -> buffer st' = [] ->
     buffer st = [] /\ isspace l = true /\ st' = st).
Proof.
  split; [| split; [| split; [| split; [| split]]]].
  - intros ls ls' Hc. unfold yields, aggregate_entries.
    destruct (@loop_class ls ls' 1 init init Hc (conj eq_refl eq_refl))
      as [H1 H2].
    destruct (loop 1 ls init) as [ys r].
    destruct (loop 1 ls' init) as [ys' r'].
    cbn [fst snd] in *. split; [assumption | congruence].
  - intros n l st Hne. rewrite body_unfold.
    destruct (buffer st) as [| b bs] eqn:Eb; [now contradiction Hne |].
    reflexivity.
  - intros n l st Hb Hs. rewrite body_first by assumption.
    unfold flush. now destruct (re_match rx_end l).
  - intros n l st e st' Hc Hy.
    assert (Hm : re_match rx_end l = false).
    { destruct (re_match rx_end l) eqn:Hm; [| reflexivity].
      apply rx_end_match_contains in Hm. congruence. }
    unfold body, flush in Hy. rewrite Hm in Hy.
    destruct (append_line n l st); discriminate.
  - split; [reflexivity |]. intros n l st e st' Hy.
    rewrite body_unfold in Hy.
    destruct (buffer st) as [| b bs].
    + destruct (isspace l); [discriminate |].
      destruct (re_match rx_end l); [| discriminate].
      now injection Hy as <- <-.
    + destruct (_ <? MAX_BUFFER); [| discriminate].
      destruct (re_match rx_end l); [| discriminate].
      destruct (entry_line_no st); [| discriminate].
      now injection Hy as <- <-.
  - intros n l st st' Hc Hb. rewrite body_unfold in Hc.
    destruct (buffer st) as [| b bs] eqn:Eb.
    + destruct (isspace l).
      * injection Hc as <-. now repeat split.
      * destruct (re_match rx_end l); [discriminate |].
        injection Hc as <-. discriminate.
    + destruct (_ <? MAX_BUFFER); [| discriminate].
      destruct (re_match rx_end l).
      * destruct (entry_line_no st); discriminate.
      * injection Hc as <-. cbn [buffer] in Hb. discriminate.
Qed.

Lemma start_marker_ignored_witness :
  let marked :=
    [START_MARKER ++ py "a"; START_MARKER ++ py "b"; py "c|#]";
     START_MARKER ++ py "d|#]"] in
  shape (yields marked)
  = shape (yields [py "x"; py "y"; py "[#||#]"; py "|#]"]) /\
  yields marked
  = [(1, [py "[#|a"; py "[#|b"; py "c|#]"]); (4, [py "[#|d|#]"])].
Proof.
  cbv zeta. destruct start_marker_ignored as (H1 & _).
  split; [| reflexivity].
  apply (H1 [START_MARKER ++ py "a"; START_MARKER ++ py "b"; py "c|#]";
             START_MARKER ++ py "d|#]"]
            [py "x"; py "y"; py "[#||#]"; py "|#]"]).
  reflexivity.
Defined.

(** ** Worked examples *)

(** The example of the docstring of [aggregate_entries]. *)
Example docstring_example :
  aggregate_entries
    [py "[#|2012-04-04..."; py "blablabla|#]";
     py "[#|2012-04-04..."; py "blebleble|#]"]
  = ([(1, [py "[#|2012-04-04..."; py "blablabla|#]"]);
      (3, [py "[#|2012-04-04..."; py "blebleble|#]"])], Returned).
Proof. reflexivity. Qed.

(** Two one-line entries and the pattern [SEVERE]: one match, at line 1. *)
Example end_to_end_example :
  matching_entries [literal (py "SEVERE")]
    [py "[#|2012-01-01T00:00:00|SEVERE|msg one|#]" ++ [NEWLINE];
     py "[#|2012-01-01T00:00:01|INFO|msg two|#]" ++ [NEWLINE]]
  = [(1, [py "[#|2012-01-01T00:00:00|SEVERE|msg one|#]" ++ [NEWLINE]])].
Proof. reflexivity. Qed.

(** Text that is not a Line: the marker comes after a newline, so the
    text contains it and the pattern, matched from the start, misses it. *)
Example marker_after_newline :
  let text := py "a" ++ [NEWLINE] ++ py "|#]" in
  contains END_SENTINEL text = true /\ re_match rx_end text = false /\
  is_line text = false.
Proof. repeat split. Qed.

(** The overflow is an error of its own, the dangling tail is none. *)
Example overflow_is_not_dangling :
  snd (aggregate_entries (repeat (py "a") 5000 ++ [py "a"]))
  = Raised AssertionError /\
  aggregate_entries (repeat (py "a") 5000) = ([], Returned).
Proof. vm_compute. split; reflexivity. Qed.

(** * Further properties of the generator and of the filter *)

(** ** The shape of every stream the generator gets through *)

Lemma compose_app_tail (segs : list (list str * list str)) (t x : list str) :
  compose segs t ++ x = compose segs (t ++ x).
Proof.
  induction segs as [| [b e] segs IH]; cbn [compose]; [reflexivity |].
  now rewrite <- !app_assoc, IH.
Qed.

Lemma compose_snoc (segs : list (list str * list str)) (b e t : list str) :
  compose (segs ++ [(b, e)]) t = compose segs (b ++ e ++ t).
Proof.
  induction segs as [| [b' e'] segs IH]; cbn [compose app]; [reflexivity |].
  now rewrite IH.
Qed.

Lemma length_compose (segs : list (list str * list str)) (t : list str) :
  length (compose segs t) = length (compose segs []) + length t.
Proof.
  replace (compose segs t) with (compose segs [] ++ t)
    by apply compose_app_tail.
  apply length_app.
Qed.

Lemma located_snoc (segs : list (list str * list str)) (b e : list str)
  (n : nat) :
  located n (segs ++ [(b, e)])
  = located n segs ++ [(n + length (compose segs []) + length b, e)].
Proof.
  revert n. induction segs as [| [b' e'] segs IH]; intro n;
    cbn [located compose app length].
  - now rewrite Nat.add_0_r.
  - rewrite IH, !length_app. do 4 f_equal. lia.
Qed.

Lemma closes_at_last_snoc (ls : list str) (last : str) :
  sentinel_free ls = true -> re_match rx_end last = true ->
  closes_at_last (ls ++ [last]) = true.
Proof.
  intros Hq Hm. induction ls as [| l ls IH]; cbn [app closes_at_last].
  - assumption.
  - cbn [sentinel_free forallb] in Hq. apply andb_true_iff in Hq as [Hl Hq].
    destruct (ls ++ [last]) eqn:E; [now destruct ls |].
    rewrite Hl. now apply IH.
Qed.

(** The invariant that ties the stream read so far to what was yielded and
    to the buffer. *)
Lemma loop_shape (lines : list str) (ys : list entry) (st : locals) :
  loop 1 lines init = (ys, inr st) ->
  exists segs blanks,
    lines = compose segs (blanks ++ buffer st) /\
    ys = located 1 segs /\
    Forall (fun seg => forallb isspace (fst seg) = true /\
                       is_entry_run (snd seg) = true) segs /\
    forallb isspace blanks = true /\
    (buffer st = [] \/
     (starts_retained (buffer st) = true /\
      sentinel_free (buffer st) = true /\
      length (buffer st) <= MAX_BUFFER /\
      entry_line_no st = Some (S (length (compose segs blanks))))).
Proof.
  pose proof MAX_BUFFER_pos as Hpos.
  revert ys st. induction lines as [| l ls IH] using rev_ind;
    intros ys st Hloop.
  - injection Hloop as <- <-. exists [], []. cbn.
    split; [reflexivity |]. split; [reflexivity |].
    split; [constructor |]. split; [reflexivity | now left].
  - rewrite loop_app in Hloop.
    destruct (loop 1 ls init) as [ys1 [x | st1]] eqn:E1; [discriminate |].
    destruct (IH ys1 st1 eq_refl) as (segs & blanks & Hl & Hy & Hsegs & Hbl & Hbuf).
    assert (Hlen : length ls = length (compose segs blanks) + length (buffer st1)).
    { rewrite Hl at 1.
      rewrite (length_compose segs (blanks ++ buffer st1)).
      rewrite (length_compose segs blanks), length_app. lia. }
    assert (Hsnoc : ls ++ [l] = compose segs (blanks ++ buffer st1 ++ [l])).
    { rewrite Hl at 1. rewrite compose_app_tail. now rewrite <- app_assoc. }
    clear Hl IH E1.
    cbn [loop] in Hloop. rewrite body_unfold in Hloop.
    destruct (buffer st1) as [| b bs] eqn:Eb.
    + cbn [length app] in Hlen, Hsnoc. rewrite Nat.add_0_r in Hlen.
      destruct (isspace l) eqn:Hs.
      * injection Hloop as <- <-. rewrite Eb.
        exists segs, (blanks ++ [l]). rewrite !app_nil_r.
        split; [assumption |]. split; [assumption |]. split; [assumption |].
        split; [| now left].
        rewrite forallb_app, Hbl. cbn [forallb]. now rewrite Hs.
      * destruct (re_match rx_end l) eqn:Hm.
        -- injection Hloop as <- <-. cbn [buffer].
           exists (segs ++ [(blanks, [l])]), [].
           split; [now rewrite compose_snoc |].
           split.
           { rewrite located_snoc, Hy. do 3 f_equal.
             rewrite (length_compose segs blanks) in Hlen. lia. }
           split.
           { apply Forall_app. split; [assumption |].
             constructor; [| constructor]. cbn [fst snd].
             split; [assumption |].
             unfold is_entry_run. cbn [closes_at_last starts_retained length].
             rewrite Hm, Hs. cbn [negb andb].
             apply Nat.leb_le. lia. }
           split; [reflexivity | now left].
        -- injection Hloop as <- <-. cbn [buffer entry_line_no].
           exists segs, blanks. rewrite app_nil_r.
           split; [assumption |]. split; [assumption |].
           split; [assumption |]. split; [assumption |]. right.
           cbn [starts_retained sentinel_free forallb length].
           rewrite Hs, Hm. cbn [negb andb].
           split; [reflexivity |]. split; [reflexivity |].
           split; [lia |]. do 2 f_equal. lia.
    + rewrite <- Eb in *. destruct Hbuf as [Hnil | (Hr & Hq & Hlb & Hno)];
        [rewrite Eb in Hnil; discriminate |].
      destruct (Nat.ltb_spec (length (buffer st1)) MAX_BUFFER) as [Hlt | Hge];
        [| discriminate].
      rewrite Hno in Hloop. destruct (re_match rx_end l) eqn:Hm.
      * injection Hloop as <- <-. cbn [buffer].
        exists (segs ++ [(blanks, buffer st1 ++ [l])]), [].
        split; [now rewrite compose_snoc, !app_nil_r |].
        split.
        { rewrite located_snoc, Hy. do 3 f_equal.
          rewrite (length_compose segs blanks). lia. }
        split.
        { apply Forall_app. split; [assumption |].
          constructor; [| constructor]. cbn [fst snd].
          split; [assumption |]. unfold is_entry_run.
          rewrite closes_at_last_snoc, starts_retained_app by assumption.
          cbn [andb]. apply Nat.leb_le. rewrite length_app. cbn [length]. lia. }
        split; [reflexivity | now left].
      * injection Hloop as <- <-. cbn [buffer entry_line_no].
        exists segs, blanks. rewrite app_nil_r.
        split; [assumption |].
        split; [assumption |]. split; [assumption |].
        split; [assumption |]. right.
        split; [now apply starts_retained_app |].
        split.
        { unfold sentinel_free in *. rewrite forallb_app, Hq.
          cbn [forallb]. now rewrite Hm. }
        split; [rewrite length_app; cbn [length]; lia | reflexivity].
Qed.

(** Runs of blank lines and entry runs are consumed one after the other. *)
Lemma loop_runs (segs : list (list str * list str)) (n : nat) (st : locals) :
  buffer st = [] ->
  Forall (fun seg => forallb isspace (fst seg) = true /\
                     is_entry_run (snd seg) = true) segs ->
  exists st',
    loop n (compose segs []) st = (located n segs, inr st') /\
    buffer st' = [].
Proof.
  revert n st. induction segs as [| [b e] segs IH]; intros n st Hb Hs.
  - now exists st.
  - inversion Hs as [| ? ? [Hbl He] Hs']; subst. cbn [fst snd] in *.
    apply is_entry_run_spec in He.
    destruct (IH (n + length b + length e) (mkLocals [] (Some (n + length b))) eq_refl Hs')
      as (st' & Hl & Hb').
    exists st'. split; [| assumption]. cbn [compose located].
    rewrite loop_app, loop_blank_run by assumption.
    rewrite loop_app, loop_entry by assumption.
    now rewrite Hl.
Qed.

Lemma length_located (segs : list (list str * list str)) (n : nat) :
  length (located n segs) = length segs.
Proof.
  revert n. induction segs as [| [b e] segs IH]; intro n; [reflexivity |].
  cbn [located length]. now rewrite IH.
Qed.

(** X1. The generator returns normally exactly on the streams made of
    runs of blank lines and entry runs (a retained first line, the
    sentinel on the last line only, at most 5000 lines), closed by blank
    lines and possibly by a run that is never closed and fits the buffer;
    and what it has yielded then is exactly the entry runs, each with the
    ordinal of its first line. *)
Theorem normal_return_shape (lines : list str) (ys : list entry) :
  aggregate_entries lines = (ys, Returned) <->
  exists segs blanks tail,
    lines = compose segs (blanks ++ tail) /\
    ys = located 1 segs /\
    Forall (fun seg => forallb isspace (fst seg) = true /\
                       is_entry_run (snd seg) = true) segs /\
    forallb isspace blanks = true /\
    (tail = [] \/
     (starts_retained tail = true /\ sentinel_free tail = true /\
      length tail <= MAX_BUFFER)).
Proof.
  split.
  - unfold aggregate_entries. intro Ha.
    destruct (loop 1 lines init) as [ys' [x | st]] eqn:El; [discriminate |].
    injection Ha as ->.
    destruct (@loop_shape _ _ _ El) as (segs & blanks & Hl & Hy & Hs & Hb & Ht).
    exists segs, blanks, (buffer st).
    split; [assumption |]. split; [assumption |]. split; [assumption |].
    split; [assumption |].
    destruct Ht as [Ht | (H1 & H2 & H3 & _)]; [now left | now right].
  - intros (segs & blanks & tail & -> & -> & Hs & Hb & Ht).
    destruct (@loop_runs segs 1 init eq_refl Hs) as (st' & Hl & Hb').
    assert (Hbl : loop (S (length (compose segs []))) blanks st' = ([], inr st'))
      by now apply loop_blank_run.
    destruct (aggregate_app (compose segs []) blanks Hl Hbl) as [Hl2 _].
    rewrite app_nil_r, compose_app_tail in Hl2. cbn [app] in Hl2.
    rewrite <- compose_app_tail.
    destruct Ht as [-> | (H1 & H2 & H3)].
    + rewrite app_nil_r. unfold aggregate_entries. now rewrite Hl2.
    + apply sentinel_free_quiet in H2.
      assert (Ho : loop (S (length (compose segs blanks))) tail st'
                   = ([], inr (mkLocals tail (Some (S (length (compose segs blanks)))))))
        by now apply loop_open.
      destruct (aggregate_app (compose segs blanks) tail Hl2 Ho) as [_ Ha].
      now rewrite app_nil_r in Ha.
Qed.

(** A loop that ends by an exception got through a prefix of the lines and
    failed on the next one. *)
Lemma loop_error_split (lines : list str) (n : nat) (st : locals)
  (ys : list entry) (x : exn) :
  loop n lines st = (ys, inl x) ->
  exists pre l post st',
    lines = pre ++ l :: post /\ loop n pre st = (ys, inr st') /\
    body (n + length pre) l st' = Raise x.
Proof.
  revert n st ys. induction lines as [| l ls IH]; intros n st ys Hloop;
    [discriminate |].
  cbn [loop] in Hloop. destruct (body n l st) as [st1 | e st1 | x'] eqn:Eb.
  - destruct (IH _ _ _ Hloop) as (pre & l' & post & st' & -> & Hp & Hr).
    exists (l :: pre), l', post, st'.
    split; [reflexivity |]. cbn [loop length]. rewrite Eb.
    split; [assumption |]. now rewrite Nat.add_succ_r.
  - destruct (loop (S n) ls st1) as [ys' r'] eqn:El.
    injection Hloop as <- ->.
    destruct (IH _ _ _ El) as (pre & l' & post & st' & -> & Hp & Hr).
    exists (l :: pre), l', post, st'.
    split; [reflexivity |]. cbn [loop length]. rewrite Eb, Hp.
    split; [reflexivity |]. now rewrite Nat.add_succ_r.
  - injection Hloop as <- <-. exists [], l, ls, st.
    split; [reflexivity |]. split; [reflexivity |].
    cbn [length]. now rewrite Nat.add_0_r.
Qed.

(** X2. [lines] are the lines that the iterable delivers before it
    stops; an iterable that raises while it is read is not covered. On
    such lines the generator ends by an exception exactly when, after
    runs of blank lines and entry runs, 5000 lines without a sentinel
    follow a retained line and one more line comes; the exception is the
    failed assertion, and what was yielded before it is exactly the entry
    runs. *)
Theorem overflow_shape (lines : list str) (ys : list entry) (x : exn) :
  aggregate_entries lines = (ys, Raised x) <->
  x = AssertionError /\
  exists segs blanks run l post,
    lines = compose segs (blanks ++ run ++ l :: post) /\
    ys = located 1 segs /\
    Forall (fun seg => forallb isspace (fst seg) = true /\
                       is_entry_run (snd seg) = true) segs /\
    forallb isspace blanks = true /\
    starts_retained run = true /\ sentinel_free run = true /\
    length run = MAX_BUFFER.
Proof.
  pose proof MAX_BUFFER_pos as Hpos. split.
  - unfold aggregate_entries. intro Ha.
    destruct (loop 1 lines init) as [ys' [x' | st]] eqn:El; [| discriminate].
    injection Ha as -> ->.
    destruct (loop_error_split _ _ _ El) as (pre & l & post & st & -> & Hp & Hr).
    destruct (@loop_shape _ _ _ Hp) as (segs & blanks & Hl & Hy & Hs & Hb & Ht).
    rewrite body_unfold in Hr.
    destruct (buffer st) as [| b bs] eqn:Eb.
    + destruct (isspace l); [discriminate |].
      destruct (re_match rx_end l); discriminate.
    + rewrite <- Eb in *.
      destruct Ht as [Ht | (H1 & H2 & H3 & H4)]; [rewrite Eb in Ht; discriminate |].
      destruct (Nat.ltb_spec (length (buffer st)) MAX_BUFFER) as [Hlt | Hge].
      * rewrite H4 in Hr. destruct (re_match rx_end l); discriminate.
      * injection Hr as <-. split; [reflexivity |].
        exists segs, blanks, (buffer st), l, post.
        split.
        { rewrite Hl, <- !compose_app_tail. now rewrite <- !app_assoc. }
        split; [assumption |]. split; [assumption |]. split; [assumption |].
        split; [assumption |]. split; [assumption | lia].
  - intros (-> & segs & blanks & run & l & post & -> & -> & Hs & Hb & H1 & H2 & H3).
    destruct (@loop_runs segs 1 init eq_refl Hs) as (st' & Hl & Hb').
    assert (Hbl : loop (S (length (compose segs []))) blanks st' = ([], inr st'))
      by now apply loop_blank_run.
    destruct (aggregate_app (compose segs []) blanks Hl Hbl) as [Hl2 _].
    rewrite app_nil_r, compose_app_tail in Hl2. cbn [app] in Hl2.
    rewrite <- compose_app_tail.
    apply sentinel_free_quiet in H2.
    assert (Ho : loop (S (length (compose segs blanks))) (run ++ l :: post) st'
                 = ([], inl AssertionError)).
    { rewrite loop_app, loop_open; [| assumption | assumption | assumption | lia].
      cbn [loop]. rewrite body_overflow; [reflexivity | cbn [buffer]; lia]. }
    destruct (aggregate_app (compose segs blanks) _ Hl2 Ho) as [_ Ha].
    now rewrite app_nil_r in Ha.
Qed.

(** X3. When the generator returns normally it has yielded as many
    entries as the stream has lines that match the end-sentinel pattern. *)
Theorem one_entry_per_sentinel_line (lines : list str) (ys : list entry) :
  aggregate_entries lines = (ys, Returned) ->
  length ys = length (filter (re_match rx_end) lines).
Proof.
  unfold aggregate_entries.
  destruct (loop 1 lines init) as [ys' [x | st']] eqn:El; [discriminate |].
  intro Ha. injection Ha as ->. revert El.
  generalize 1 as n. generalize init as st. revert ys st'.
  induction lines as [| l ls IH]; intros ys st' st n Hloop.
  - now injection Hloop as <- <-.
  - cbn [loop filter] in *. rewrite body_unfold in Hloop.
    destruct (buffer st) as [| b bs].
    + destruct (isspace l) eqn:Hs.
      * rewrite (isspace_no_match l Hs). now apply IH in Hloop.
      * destruct (re_match rx_end l).
        -- destruct (loop (S n) ls _) as [zs r] eqn:E.
           injection Hloop as <- ->. cbn [length]. f_equal. now apply IH in E.
        -- now apply IH in Hloop.
    + destruct (_ <? MAX_BUFFER); [| discriminate].
      destruct (re_match rx_end l).
      * destruct (entry_line_no st); [| discriminate].
        destruct (loop (S n) ls _) as [zs r] eqn:E.
        injection Hloop as <- ->. cbn [length]. f_equal. now apply IH in E.
      * now apply IH in Hloop.
Qed.

(** ** The filter and the pipeline *)

Section PipelineFacts.

Context {R : Type} `{Searchable R}.

(** X4. Patterns given together filter like patterns given one set after
    the other. *)
Theorem filter_composition (rs1 rs2 : list R) (e : entry) (lines : list str) :
  make_regex_filter (rs1 ++ rs2) e
  = make_regex_filter rs1 e && make_regex_filter rs2 e /\
  matching_entries (rs1 ++ rs2) lines
  = filter (make_regex_filter rs2) (matching_entries rs1 lines).
Proof.
  assert (Happ : forall e', make_regex_filter (rs1 ++ rs2) e'
                   = make_regex_filter rs1 e' && make_regex_filter rs2 e').
  { intro e'. rewrite !make_regex_filter_forallb. apply forallb_app. }
  split; [apply Happ |]. unfold matching_entries.
  induction (yields lines) as [| y ys IH]; [reflexivity |].
  cbn [filter]. rewrite Happ.
  destruct (make_regex_filter rs1 y); cbn [andb filter];
    [destruct (make_regex_filter rs2 y) |]; now rewrite IH.
Qed.

(** X5. What the pipeline reports for a file are the entries yielded in
    which every pattern is found, and each of them is a run of lines of
    the file that starts at the ordinal reported. *)
Theorem reported_entries (regexes : list R) (lines : list str) (e : entry) :
  (In e (matching_entries regexes lines) <->
   In e (yields lines) /\
   forall regex, In regex regexes ->
     exists l, In l (snd e) /\ search regex l = true) /\
  (In e (matching_entries regexes lines) -> located_in lines e).
Proof.
  assert (Hiff : In e (matching_entries regexes lines) <->
                 In e (yields lines) /\
                 forall regex, In regex regexes ->
                   exists l, In l (snd e) /\ search regex l = true).
  { unfold matching_entries. rewrite filter_In.
    rewrite make_regex_filter_forallb, forallb_forall.
    split; intros [Hin Hall]; (split; [assumption |]);
      intros regex Hr; now apply existsb_exists, Hall. }
  split; [exact Hiff |]. intro Hin. apply Hiff in Hin as [Hin _].
  destruct (aggregate_sound lines) as (Hall & _).
  rewrite Forall_forall in Hall. now apply Hall.
Qed.

End PipelineFacts.

(** * The main block of [find_log_entries.py] *)

(** ** The backtracking matcher *)

Import Sre.

Lemma first_down_top (A : Type) (f : nat -> option A) (n : nat) (r : A) :
  f n = Some r -> first_down f n = Some r.
Proof. intro Hf. destruct n; cbn [first_down]; now rewrite Hf. Qed.

Lemma first_down_step (A : Type) (f : nat -> option A) (n : nat) :
  f (S n) = None -> first_down f (S n) = first_down f n.
Proof. intro Hf. cbn [first_down]. now rewrite Hf. Qed.

Lemma first_down_none (A : Type) (f : nat -> option A) (n : nat) :
  (forall k, k <= n -> f k = None) -> first_down f n = None.
Proof.
  induction n as [| n IH]; intro Hf.
  - cbn [first_down]. now rewrite (Hf 0).
  - rewrite first_down_step by (apply Hf; lia). apply IH.
    intros k Hk. apply Hf. lia.
Qed.

(** The longest count that succeeds wins. *)
Lemma first_down_greedy (A : Type) (f : nat -> option A) (n k : nat) (r : A) :
  k <= n -> f k = Some r -> (forall j, k < j -> j <= n -> f j = None) ->
  first_down f n = Some r.
Proof.
  induction n as [| n IH]; intros Hk Hf Hnone.
  - replace k with 0 in Hf by lia. now apply first_down_top.
  - destruct (Nat.eq_dec k (S n)) as [-> | Hne].
    + now apply first_down_top.
    + rewrite first_down_step by (apply Hnone; lia).
      apply IH; [lia | assumption |]. intros j H1 H2. apply Hnone; lia.
Qed.

Lemma first_down_inv (A : Type) (f : nat -> option A) (n : nat) (r : A) :
  first_down f n = Some r ->
  exists k, k <= n /\ f k = Some r /\
            forall j, k < j -> j <= n -> f j = None.
Proof.
  induction n as [| n IH]; cbn [first_down]; intro Hf.
  - destruct (f 0) eqn:E; [| discriminate]. injection Hf as ->.
    exists 0. split; [lia |]. split; [assumption |]. intros j H1 H2. lia.
  - destruct (f (S n)) eqn:E.
    + injection Hf as ->. exists (S n).
      split; [lia |]. split; [assumption |]. intros j H1 H2. lia.
    + destruct (IH Hf) as (k & Hk & Hfk & Hnone).
      exists k. split; [lia |]. split; [assumption |].
      intros j H1 H2. destruct (Nat.eq_dec j (S n)) as [-> | Hne];
        [assumption | apply Hnone; lia].
Qed.

Lemma span_le (cls : char -> bool) (s : str) : span cls s <= length s.
Proof.
  induction s as [| c s IH]; cbn [span length]; [lia |].
  destruct (cls c); lia.
Qed.

Lemma span_firstn (cls : char -> bool) (s : str) (k : nat) :
  k <= span cls s -> forallb cls (firstn k s) = true.
Proof.
  revert k. induction s as [| c s IH]; intros k Hk; cbn [span] in Hk.
  - now destruct k.
  - destruct k as [| k]; [reflexivity |]. cbn [firstn forallb].
    destruct (cls c); [| lia]. apply IH. lia.
Qed.

(** Below the span the next character is of the class; at the span, if
    there is one, it is not. *)
Lemma span_skipn_lt (cls : char -> bool) (s : str) (k : nat) :
  k < span cls s ->
  exists c rest, skipn k s = c :: rest /\ cls c = true.
Proof.
  revert k. induction s as [| c s IH]; intros k Hk; cbn [span] in Hk;
    [lia |].
  destruct (cls c) eqn:Hc; [| lia].
  destruct k as [| k]; [now exists c, s |].
  cbn [skipn]. apply IH. lia.
Qed.

Lemma span_skipn_eq (cls : char -> bool) (s : str) (c : char) (rest : str) :
  skipn (span cls s) s = c :: rest -> cls c = false.
Proof.
  induction s as [| d s IH]; cbn [span]; [discriminate |].
  destruct (cls d) eqn:Hd; cbn [skipn]; [assumption |].
  intro E. now injection E as -> _.
Qed.

Lemma span_app (cls : char -> bool) (a b : str) :
  forallb cls a = true ->
  span cls (a ++ b) = length a + span cls b.
Proof.
  induction a as [| c a IH]; cbn [forallb app span length]; [reflexivity |].
  intro Ha. apply andb_true_iff in Ha as [Hc Ha]. rewrite Hc.
  now rewrite IH.
Qed.

(** The matcher, one atom at a time. *)
Section ExecSteps.

Variables (p : pattern) (pre rest : str) (marks : list (nat * nat))
  (caps : list (nat * str)) (accept : nat -> bool).

Lemma exec_nil :
  exec [] pre rest marks caps accept
  = if accept (length pre) then Some (length pre, caps) else None.
Proof. reflexivity. Qed.

Lemma exec_lit (c : char) :
  exec (Lit c :: p) pre rest marks caps accept
  = match rest with
    | d :: rest' =>
        if (c =? d)%N then exec p (pre ++ [d]) rest' marks caps accept
        else None
    | [] => None
    end.
Proof. reflexivity. Qed.

Lemma exec_rep (cls : char -> bool) (least : nat) :
  exec (Rep cls least :: p) pre rest marks caps accept
  = first_down
      (fun n =>
         if least <=? n then
           exec p (pre ++ firstn n rest) (skipn n rest) marks caps accept
         else None)
      (span cls rest).
Proof. reflexivity. Qed.

Lemma exec_bol (multiline : bool) :
  exec (Bol multiline :: p) pre rest marks caps accept
  = if at_bol multiline pre then exec p pre rest marks caps accept else None.
Proof. reflexivity. Qed.

Lemma exec_eol (multiline : bool) :
  exec (Eol multiline :: p) pre rest marks caps accept
  = if at_eol multiline rest then exec p pre rest marks caps accept else None.
Proof. reflexivity. Qed.

Lemma exec_open (g : nat) :
  exec (Open g :: p) pre rest marks caps accept
  = exec p pre rest ((g, length pre) :: marks) caps accept.
Proof. reflexivity. Qed.

Lemma exec_close (g : nat) :
  exec (Close g :: p) pre rest marks caps accept
  = exec p pre rest marks ((g, skipn (mark g marks) pre) :: caps) accept.
Proof. reflexivity. Qed.

End ExecSteps.

(** ** The pattern for [/regex/] arguments *)

Lemma at_eol_not_all_space (w : str) (k : nat) :
  forallb Py_UNICODE_ISSPACE w = false -> k <= span Py_UNICODE_ISSPACE w ->
  at_eol false (skipn k w) = false.
Proof.
  revert k. induction w as [| c w IH]; intros k Hw Hk; [discriminate |].
  cbn [forallb span] in Hw, Hk.
  destruct (Py_UNICODE_ISSPACE c) eqn:Hc.
  - cbn [andb] in Hw. destruct k as [| k].
    + cbn [skipn at_eol orb]. destruct w; [discriminate |].
      apply andb_false_r.
    + cbn [skipn]. apply IH; [assumption | lia].
  - replace k with 0 by lia. cbn [skipn at_eol].
    destruct (N.eqb_spec c NEWLINE) as [-> | _]; [discriminate | reflexivity].
Qed.

(** [\s*$] and the closing parenthesis: it succeeds exactly on text that
    is all whitespace, and takes all of it. *)
Lemma exec_space_to_end (g : nat) (pre w : str) (marks : list (nat * nat))
  (caps : list (nat * str)) :
  exec [Rep Py_UNICODE_ISSPACE 0; Eol false; Close g] pre w marks caps
    (fun _ => true)
  = if forallb Py_UNICODE_ISSPACE w then
      Some (length (pre ++ w), (g, skipn (mark g marks) (pre ++ w)) :: caps)
    else None.
Proof.
  rewrite exec_rep. destruct (forallb Py_UNICODE_ISSPACE w) eqn:Hw.
  - apply first_down_top.
    assert (Hs : span Py_UNICODE_ISSPACE w = length w).
    { rewrite <- (app_nil_r w) at 1. rewrite span_app by assumption.
      cbn [span]. lia. }
    rewrite Hs, firstn_all, skipn_all. cbn [Nat.leb].
    now rewrite exec_eol, exec_close, exec_nil.
  - apply first_down_none. intros k Hk. cbn [Nat.leb].
    now rewrite exec_eol, at_eol_not_all_space.
Qed.

(** The third group and the end of the second: a slash and whitespace to
    the end. *)
Lemma exec_slash_to_end (pre r : str) (marks : list (nat * nat))
  (caps : list (nat * str)) :
  exec [Close 2; Open 3; Lit (chr "/"); Rep Py_UNICODE_ISSPACE 0; Eol false;
        Close 3] pre r marks caps (fun _ => true)
  = match r with
    | c :: w =>
        if (chr "/" =? c)%N && forallb Py_UNICODE_ISSPACE w then
          Some (length (pre ++ c :: w),
                (3, c :: w) :: (2, skipn (mark 2 marks) pre) :: caps)
        else None
    | [] => None
    end.
Proof.
  rewrite exec_close, exec_open, exec_lit. destruct r as [| c w]; [reflexivity |].
  destruct (chr "/" =? c)%N; [| reflexivity].
  rewrite exec_space_to_end. cbn [andb].
  destruct (forallb Py_UNICODE_ISSPACE w); [| reflexivity].
  cbn [mark Nat.eqb]. rewrite <- !app_assoc. cbn [app].
  now rewrite skipn_app, skipn_all, Nat.sub_diag.
Qed.

(** What [rx_regex_arg.match] finds, when it finds something. *)
Lemma regex_arg_inv (arg : str) (m : found) :
  rmatch rx_regex_arg arg = Some m ->
  exists ws1 body ws2,
    arg = ws1 ++ chr "/" :: body ++ chr "/" :: ws2 /\
    forallb Py_UNICODE_ISSPACE ws1 = true /\
    forallb dot body = true /\
    forallb Py_UNICODE_ISSPACE ws2 = true /\
    group (f_caps m) 2 = Some body.
Proof.
  unfold rmatch, attempt, rx_regex_arg. cbn [firstn skipn].
  rewrite exec_open, exec_bol, exec_rep. cbn [at_bol rev].
  intro Hm.
  destruct (first_down _ _) as [[j caps] |] eqn:E1 in Hm; [| discriminate].
  injection Hm as <-. cbn [f_caps].
  apply first_down_inv in E1 as (n & Hn & E1 & _). cbn [Nat.leb] in E1.
  rewrite exec_lit in E1.
  destruct (skipn n arg) as [| c r2] eqn:Er; [discriminate |].
  destruct (N.eqb_spec (chr "/") c) as [<- | _]; [| discriminate].
  rewrite exec_close, exec_open, exec_rep in E1.
  apply first_down_inv in E1 as (k & Hk & E2 & _). cbn [Nat.leb] in E2.
  rewrite exec_slash_to_end in E2.
  destruct (skipn k r2) as [| d w] eqn:Ek; [discriminate |].
  destruct (N.eqb_spec (chr "/") d) as [<- | _]; [| discriminate].
  cbn [andb] in E2.
  destruct (forallb Py_UNICODE_ISSPACE w) eqn:Hw; [| discriminate].
  injection E2 as _ <-.
  exists (firstn n arg), (firstn k r2), w.
  split.
  { rewrite <- (firstn_skipn n arg) at 1. rewrite Er.
    rewrite <- (firstn_skipn k r2) at 1. now rewrite Ek. }
  split; [now apply span_firstn |]. split; [now apply span_firstn |].
  split; [assumption |].
  cbn [group Nat.eqb mark]. f_equal.
  rewrite length_app. cbn [length].
  rewrite skipn_app, skipn_all2 by (rewrite length_app; cbn [length]; lia).
  rewrite length_app. cbn [length app].
  now replace (length (firstn n arg) + 1 - (length (firstn n arg) + 1)) with 0 by lia.
Qed.

Lemma forallb_skipn_head (cls : char -> bool) (s : str) (i : nat) (c : char)
  (rest : str) :
  forallb cls s = true -> skipn i s = c :: rest -> cls c = true.
Proof.
  intros Hs E. rewrite <- (firstn_skipn i s), forallb_app, E in Hs.
  apply andb_true_iff in Hs as [_ Hs]. cbn [forallb] in Hs.
  now apply andb_true_iff in Hs as [Hc _].
Qed.

(** What [rx_regex_arg.match] finds on an argument of the shape. *)
Lemma regex_arg_complete (ws1 body ws2 : str) :
  forallb Py_UNICODE_ISSPACE ws1 = true -> forallb dot body = true ->
  forallb Py_UNICODE_ISSPACE ws2 = true ->
  exists m,
    rmatch rx_regex_arg (ws1 ++ chr "/" :: body ++ chr "/" :: ws2) = Some m /\
    group (f_caps m) 2 = Some body.
Proof.
  intros H1 Hb H2. unfold rmatch, attempt, rx_regex_arg. cbn [firstn skipn].
  rewrite exec_open, exec_bol, exec_rep. cbn [at_bol rev].
  rewrite span_app by assumption. cbn [span].
  change (Py_UNICODE_ISSPACE (chr "/")) with false. cbn iota.
  rewrite Nat.add_0_r.
  match goal with
  | |- exists m, match first_down ?f ?n with _ => _ end = _ /\ _ =>
      assert (Hf : exists j caps, f n = Some (j, caps) /\ group caps 2 = Some body)
  end.
  { cbn [Nat.leb]. rewrite firstn_app, firstn_all, Nat.sub_diag.
    rewrite skipn_app, skipn_all, Nat.sub_diag. cbn [firstn skipn app].
    rewrite app_nil_r, exec_lit, N.eqb_refl.
    rewrite exec_close, exec_open, exec_rep.
    rewrite span_app by assumption.
    match goal with
    | |- exists j caps, first_down ?g ?n = _ /\ _ =>
        assert (Hg : exists j caps, g (length body) = Some (j, caps) /\
                                    group caps 2 = Some body)
    end.
    { cbn [Nat.leb]. rewrite exec_slash_to_end.
      rewrite skipn_app, skipn_all, Nat.sub_diag. cbn [skipn app].
      rewrite N.eqb_refl, H2. cbn [andb]. eexists. eexists.
      split; [reflexivity |]. cbn [group Nat.eqb mark]. f_equal.
      rewrite firstn_app, firstn_all, Nat.sub_diag. cbn [firstn].
      rewrite app_nil_r, skipn_app, skipn_all, Nat.sub_diag.
      reflexivity. }
    destruct Hg as (j & caps & Hg & Hc). exists j, caps.
    split; [| assumption].
    apply first_down_greedy with (k := length body); [lia | assumption |].
    intros i Hi1 Hi2. cbn [Nat.leb]. rewrite exec_slash_to_end.
    rewrite skipn_app, skipn_all2 by lia. cbn [app].
    destruct (i - length body) as [| d] eqn:Ed; [lia |]. cbn [skipn].
    destruct (skipn d ws2) as [| c w] eqn:Es; [reflexivity |].
    apply (forallb_skipn_head _ _ _ H2) in Es.
    destruct (N.eqb_spec (chr "/") c) as [<- | _]; [discriminate | reflexivity]. }
  destruct Hf as (j & caps & Hf & Hc).
  rewrite (first_down_top _ _ Hf). now eexists.
Qed.

Lemma regex_arg_not_none (arg : str) : regex_arg arg <> Some None.
Proof.
  unfold regex_arg.
  destruct (rmatch rx_regex_arg arg) as [m |] eqn:Em; [| discriminate].
  destruct (regex_arg_inv _ Em) as (ws1 & b & ws2 & Ha & H1 & Hb & H2 & Hg).
  rewrite Hg. discriminate.
Qed.

(** X6. An argument is taken as a pattern exactly when it is whitespace,
    a slash, text without a newline, a slash and whitespace to its end;
    the pattern is the text between the two slashes. *)
Theorem regex_arg_spec (arg body : str) :
  (regex_arg arg = Some (Some body) <->
   exists ws1 ws2,
     arg = ws1 ++ chr "/" :: body ++ chr "/" :: ws2 /\
     forallb Py_UNICODE_ISSPACE ws1 = true /\
     forallb dot body = true /\
     forallb Py_UNICODE_ISSPACE ws2 = true) /\
  regex_arg arg <> Some None.
Proof.
  unfold regex_arg. split; [split |].
  - destruct (rmatch rx_regex_arg arg) as [m |] eqn:Em; [| discriminate].
    intro E. injection E as E.
    destruct (regex_arg_inv _ Em) as (ws1 & b & ws2 & Ha & H1 & Hb & H2 & Hg).
    rewrite Hg in E. injection E as ->. now exists ws1, ws2.
  - intros (ws1 & ws2 & -> & H1 & Hb & H2).
    destruct (regex_arg_complete ws1 body ws2 H1 Hb H2) as (m & -> & Hg).
    now rewrite Hg.
  - destruct (rmatch rx_regex_arg arg) as [m |] eqn:Em; [| discriminate].
    destruct (regex_arg_inv _ Em) as (ws1 & b & ws2 & Ha & H1 & Hb & H2 & Hg).
    rewrite Hg. discriminate.
Qed.

(** ** The loop over the arguments *)

Section MainFacts.

Context {R : Type} `{Searchable R}.
Variable compile : str -> option R.
Variable open_lines : str -> option (list str).

(** X7. The loop over the arguments sorts them without mixing them up:
    the file names are the arguments that are no patterns, in their
    order, after those already there; the patterns are compiled in their
    order; and the loop fails exactly when a pattern does not compile. *)
Theorem parse_args_spec (args : list str) (regexes : list R)
  (filenames : list str) :
  parse_args compile args regexes filenames
  = match compile_all compile (pattern_texts args) with
    | Some rs => inr (regexes ++ rs, filenames ++ filter is_filename args)
    | None => inl PatternError
    end.
Proof.
  revert regexes filenames. induction args as [| arg args IH];
    intros regexes filenames.
  - cbn. now rewrite !app_nil_r.
  - cbn [parse_args pattern_texts flat_map filter]. unfold is_filename at 1.
    destruct (regex_arg arg) as [[text |] |] eqn:Ea.
    + cbn [app compile_all]. destruct (compile text) as [r |]; [| reflexivity].
      rewrite IH. fold (pattern_texts args).
      destruct (compile_all compile (pattern_texts args)); [| reflexivity].
      now rewrite <- app_assoc.
    + now destruct (regex_arg_not_none arg).
    + cbn [app]. rewrite IH. fold (pattern_texts args).
      destruct (compile_all compile (pattern_texts args)); [| reflexivity].
      now rewrite <- app_assoc.
Qed.

(** ** The loop over the files *)

(** X8. Files are reported one after the other, and the first failure
    ends the run: what the files before it printed stays, nothing of the
    files after it is printed. *)
Theorem report_files_app (regexes : list R) (fs1 fs2 : list str) :
  report_files open_lines regexes (fs1 ++ fs2)
  = match report_files open_lines regexes fs1 with
    | (out, None) =>
        let (out', r) := report_files open_lines regexes fs2 in
        (out ++ out', r)
    | (out, Some x) => (out, Some x)
    end.
Proof.
  induction fs1 as [| f fs1 IH]; cbn [app report_files].
  - now destruct (report_files open_lines regexes fs2).
  - destruct (report_file open_lines regexes f) as [out [x |]]; [reflexivity |].
    rewrite IH.
    destruct (report_files open_lines regexes fs1) as [out1 [x |]];
      [reflexivity |].
    destruct (report_files open_lines regexes fs2) as [out2 r].
    now rewrite app_assoc.
Qed.

End MainFacts.

(** ** The headers of the report *)

Lemma py_inj (s t : string) : py s = py t -> s = t.
Proof.
  unfold py. intro E.
  rewrite <- (string_of_list_ascii_of_string s),
          <- (string_of_list_ascii_of_string t).
  f_equal. revert E.
  generalize (list_ascii_of_string s) as a, (list_ascii_of_string t) as b.
  induction a as [| x a IH]; intros [| y b] E; try discriminate;
    [reflexivity |].
  cbn [map] in E. injection E as Hxy E. f_equal; [| now apply IH].
  rewrite <- (ascii_N_embedding x), <- (ascii_N_embedding y). now f_equal.
Qed.

Lemma to_uint_not_nil (n : nat) : Nat.to_uint n <> Decimal.Nil.
Proof.
  intro E. pose proof (DecimalNat.Unsigned.of_to n) as Hn. rewrite E in Hn.
  cbn in Hn. subst n. discriminate.
Qed.

Lemma str_of_nat_inj (n m : nat) : str_of_nat n = str_of_nat m -> n = m.
Proof.
  unfold str_of_nat. intro E. apply py_inj in E.
  apply DecimalNat.Unsigned.to_uint_inj.
  assert (Hs : Some (Nat.to_uint n) = Some (Nat.to_uint m)).
  { rewrite <- (NilZero.usu (Nat.to_uint n)) by apply to_uint_not_nil.
    rewrite <- (NilZero.usu (Nat.to_uint m)) by apply to_uint_not_nil.
    now rewrite E. }
  now injection Hs.
Qed.

Lemma header_inj (filename : str) (n m : nat) :
  header filename n = header filename m -> n = m.
Proof.
  unfold header. intro E. apply app_inv_head in E. apply app_inv_head in E.
  apply app_inv_tail in E. now apply str_of_nat_inj.
Qed.

Lemma sorted_NoDup (l : list nat) : StronglySorted lt l -> NoDup l.
Proof.
  induction 1 as [| a l _ IH Hall]; constructor; [| assumption].
  intro Hin. rewrite Forall_forall in Hall. specialize (Hall a Hin). lia.
Qed.

(** X9. In the report of one file no two matches have the same header. *)
Theorem headers_distinct {R : Type} `{Searchable R} (regexes : list R)
  (filename : str) (lines : list str) :
  NoDup (map (fun e => header filename (fst e))
           (matching_entries regexes lines)).
Proof.
  destruct (aggregate_sound lines) as (_ & Hs & _).
  apply (sorted_filter (make_regex_filter regexes)) in Hs.
  fold (matching_entries regexes lines) in Hs.
  apply sorted_NoDup in Hs. revert Hs.
  generalize (matching_entries regexes lines) as ys.
  induction ys as [| y ys IH]; cbn [map]; intro Hn; [constructor |].
  inversion Hn as [| ? ? Hnin Hn']; subst. constructor; [| now apply IH].
  intro Hin. apply in_map_iff in Hin as (e & He & Hin).
  apply header_inj in He. apply Hnin. rewrite <- He. now apply in_map.
Qed.

(** * [git_lint.py] *)

Lemma commit_hash_of_eq (is_word : char -> bool) (output : str) :
  commit_hash_of is_word output
  = Some (firstn (span is_word output) output).
Proof.
  unfold commit_hash_of, finditer.
  replace (2 * length output + 2) with (S (2 * length output + 1)) by lia.
  cbn [iterate]. unfold search_from.
  assert (Ha : attempt [Rep is_word 0] output 0
                 (fun j => negb (false && (j =? 0)))
               = Some (mkFound 0 (span is_word output) [])).
  { unfold attempt. cbn [firstn skipn]. rewrite exec_rep.
    rewrite (first_down_top _ (span is_word output)
               (r := (span is_word output, []))); [reflexivity |].
    cbn [Nat.leb app]. rewrite exec_nil. cbn [andb negb].
    rewrite length_firstn. f_equal. f_equal.
    pose proof (span_le is_word output). lia. }
  destruct (length output - 0); cbn [scan]; rewrite Ha;
    unfold whole; cbn [f_start f_end skipn]; now rewrite Nat.sub_0_r.
Qed.

(** X10. [commit_hash] always finds a match: the longest run of word
    characters at the start of the output, which may be empty. *)
Theorem commit_hash_leading_word (is_word : char -> bool) (output : str) :
  commit_hash_of is_word output
  = Some (firstn (span is_word output) output) /\
  exists h rest,
    commit_hash_of is_word output = Some h /\ output = h ++ rest /\
    forallb is_word h = true /\
    match rest with [] => True | c :: _ => is_word c = false end.
Proof.
  pose proof (commit_hash_of_eq is_word output) as Hc.
  split; [assumption |].
  exists (firstn (span is_word output) output),
         (skipn (span is_word output) output).
  split; [assumption |]. split; [now rewrite firstn_skipn |].
  split; [now apply span_firstn |].
  destruct (skipn (span is_word output) output) as [| c rest] eqn:E;
    [exact I | now apply span_skipn_eq in E].
Qed.

(** X11. The lines printed for a file are none when no complaint is on a
    modified line; otherwise an empty line, the file name of the first
    such complaint, a rule of 40 [=], and one line per such complaint, in
    the order of the complaints. *)
Theorem print_problems_spec (line_nums : list nat) (problems : list problem) :
  print_problems line_nums problems true
  = map problem_line
      (filter (fun pr => existsb (Nat.eqb (p_linenumber pr)) line_nums)
         problems) /\
  print_problems line_nums problems false
  = match filter (fun pr => existsb (Nat.eqb (p_linenumber pr)) line_nums)
            problems with
    | [] => []
    | pr :: prs =>
        [] :: p_filename pr :: repeat (chr "=") 40
          :: map problem_line (pr :: prs)
    end.
Proof.
  assert (Ht : forall ps, print_problems line_nums ps true
                 = map problem_line
                     (filter (fun pr => existsb (Nat.eqb (p_linenumber pr))
                                          line_nums) ps)).
  { induction ps as [| pr ps IH]; [reflexivity |].
    cbn [print_problems filter].
    destruct (existsb _ line_nums); [| exact IH].
    cbn [app map]. now rewrite IH. }
  split; [apply Ht |].
  induction problems as [| pr ps IH]; [reflexivity |].
  cbn [print_problems filter].
  destruct (existsb _ line_nums); [| exact IH].
  cbn [app map]. now rewrite Ht.
Qed.

(** ** The names of the files of a commit *)

Lemma py_prefix_none (line : str) (j : nat) :
  py_prefix line = None -> startswith (py ".py") (skipn j line) = false.
Proof.
  revert j. induction line as [| c line IH]; intros j Hp.
  - now destruct j.
  - cbn [py_prefix] in Hp. destruct (py_prefix line) eqn:E; [discriminate |].
    destruct (startswith (py ".py") (c :: line)) eqn:Es; [discriminate |].
    destruct j as [| j]; [exact Es | now apply IH].
Qed.

Lemma py_prefix_some (line x : str) :
  py_prefix line = Some x ->
  exists n,
    x = firstn (n + 3) line /\ n + 3 <= length line /\
    startswith (py ".py") (skipn n line) = true /\
    forall j, n < j -> startswith (py ".py") (skipn j line) = false.
Proof.
  revert x. induction line as [| c line IH]; intros x Hp; [discriminate |].
  cbn [py_prefix] in Hp. destruct (py_prefix line) as [y |] eqn:E.
  - injection Hp as <-. destruct (IH y eq_refl) as (n & -> & Hn & Hs & Hj).
    exists (S n). split; [reflexivity |]. split; [cbn [length]; lia |].
    split; [exact Hs |]. intros [| j] Hlt; [lia |]. apply Hj. lia.
  - destruct (startswith (py ".py") (c :: line)) eqn:Es; [| discriminate].
    injection Hp as <-. exists 0. apply startswith_spec in Es as (q & Eq).
    split; [now rewrite Eq |]. split; [rewrite Eq; cbn; lia |].
    split; [rewrite Eq; now apply startswith_spec; exists q |].
    intros [| j] Hlt; [lia |]. cbn [skipn]. now apply py_prefix_none.
Qed.

Lemma split_lines_spec (s : str) :
  s = fst (split_lines s) ++ join_after (snd (split_lines s)) /\
  forallb dot (fst (split_lines s)) = true /\
  Forall (fun l => forallb dot l = true) (snd (split_lines s)).
Proof.
  induction s as [| c s (IH1 & IH2 & IH3)]; [now repeat split |].
  cbn [split_lines]. destruct (split_lines s) as [l more]. cbn [fst snd] in *.
  destruct (N.eqb_spec c NEWLINE) as [-> | Hne]; cbn [fst snd].
  - split; [now rewrite IH1 at 1 |]. split; [reflexivity |].
    now constructor.
  - split; [now rewrite IH1 at 1 |]. split; [| assumption].
    cbn [forallb]. rewrite IH2. unfold dot.
    now destruct (N.eqb_spec c NEWLINE).
Qed.

Lemma exec_py_suffix (pre r : str) (marks : list (nat * nat))
  (caps : list (nat * str)) (accept : nat -> bool) :
  exec [Lit (chr "."); Lit (chr "p"); Lit (chr "y")] pre r marks caps accept
  = if startswith (py ".py") r then
      if accept (length pre + 3) then Some (length pre + 3, caps) else None
    else None.
Proof.
  change (py ".py") with [chr "."; chr "p"; chr "y"].
  destruct r as [| a [| b [| c r]]]; rewrite exec_lit; cbn [startswith];
    try reflexivity.
  - now destruct (chr "." =? a)%N.
  - destruct (chr "." =? a)%N; [| reflexivity]. rewrite exec_lit.
    now destruct (chr "p" =? b)%N.
  - destruct (chr "." =? a)%N; [| reflexivity]. rewrite exec_lit.
    destruct (chr "p" =? b)%N; [| reflexivity]. rewrite exec_lit.
    destruct (chr "y" =? c)%N; [| reflexivity]. rewrite exec_nil.
    rewrite !length_app. cbn [length andb].
    now replace (length pre + 1 + 1 + 1) with (length pre + 3) by lia.
Qed.

(** What follows a line is nothing or a newline. *)
Lemma join_after_head (more : list str) :
  join_after more = [] \/ exists r, join_after more = NEWLINE :: r.
Proof. destruct more as [| l more]; [now left | right; now eexists]. Qed.

Lemma startswith_py_line (u rest : str) :
  rest = [] \/ (exists r, rest = NEWLINE :: r) ->
  startswith (py ".py") (u ++ rest) = startswith (py ".py") u.
Proof.
  change (py ".py") with [chr "."; chr "p"; chr "y"].
  intros [-> | (r & ->)]; [now rewrite app_nil_r |].
  destruct u as [| a [| b [| c u]]]; cbn [app startswith];
    change (chr "." =? NEWLINE)%N with false;
    change (chr "p" =? NEWLINE)%N with false;
    change (chr "y" =? NEWLINE)%N with false;
    rewrite ?andb_false_r; reflexivity.
Qed.

Lemma span_dot_line (cur rest : str) :
  forallb dot cur = true ->
  rest = [] \/ (exists r, rest = NEWLINE :: r) ->
  span dot (cur ++ rest) = length cur.
Proof.
  intros Hc Hr. rewrite span_app by assumption.
  destruct Hr as [-> | (r & ->)]; cbn [span]; [lia |].
  change (dot NEWLINE) with false. cbn iota. lia.
Qed.

(** The attempt at the start of a line finds the longest prefix of the
    line that ends with [.py]. *)
Lemma attempt_line_start (done cur rest : str) (accept : nat -> bool) :
  at_bol true done = true -> forallb dot cur = true ->
  rest = [] \/ (exists r, rest = NEWLINE :: r) ->
  (forall j, length done < j -> accept j = true) ->
  attempt rx_py_file (done ++ cur ++ rest) (length done) accept
  = match py_prefix cur with
    | Some x => Some (mkFound (length done) (length done + length x) [])
    | None => None
    end.
Proof.
  intros Hb Hc Hr Ha. unfold attempt, rx_py_file.
  rewrite firstn_app, firstn_all, Nat.sub_diag, firstn_0, app_nil_r.
  rewrite skipn_app, skipn_all, Nat.sub_diag, skipn_0. cbn [app].
  rewrite exec_bol, Hb, exec_rep, span_dot_line by assumption.
  assert (Hf : forall n, n <= length cur ->
            (if 0 <=? n then
               exec [Lit (chr "."); Lit (chr "p"); Lit (chr "y")]
                 (done ++ firstn n (cur ++ rest)) (skipn n (cur ++ rest))
                 [] [] accept
             else None)
            = if startswith (py ".py") (skipn n cur) then
                Some (length done + n + 3, []) else None).
  { intros n Hn. cbn [Nat.leb]. rewrite exec_py_suffix.
    rewrite skipn_app. replace (n - length cur) with 0 by lia.
    rewrite skipn_0, startswith_py_line by assumption.
    destruct (startswith (py ".py") (skipn n cur)); [| reflexivity].
    rewrite length_app, length_firstn, length_app.
    replace (Nat.min n (length cur + length rest)) with n by lia.
    rewrite Ha by lia. reflexivity. }
  destruct (py_prefix cur) as [x |] eqn:Ep.
  - destruct (py_prefix_some _ Ep) as (n & -> & Hn & Hs & Hj).
    rewrite (first_down_greedy _ (k := n) (r := (length done + n + 3, [])));
      [| lia | rewrite Hf by lia; now rewrite Hs |].
    + rewrite length_firstn. do 2 f_equal. lia.
    + intros j Hj1 Hj2. rewrite Hf by lia. now rewrite Hj.
  - rewrite first_down_none; [reflexivity |].
    intros k Hk. rewrite Hf by lia. now rewrite py_prefix_none.
Qed.

Lemma at_bol_inside (done u : str) :
  u <> [] -> forallb dot u = true -> at_bol true (done ++ u) = false.
Proof.
  intros Hu Hd. destruct (exists_last Hu) as (u' & c & ->).
  rewrite forallb_app in Hd. apply andb_true_iff in Hd as [_ Hc].
  cbn [forallb] in Hc. rewrite andb_true_r in Hc.
  unfold at_bol. rewrite app_assoc, rev_app_distr. cbn [rev app andb].
  unfold dot in Hc. now apply negb_true_iff in Hc.
Qed.

Lemma scan_hit (p : pattern) (subject : str) (k i : nat)
  (accept : nat -> bool) (m : found) :
  attempt p subject i accept = Some m -> scan p subject k i accept = Some m.
Proof. intro Ha. destruct k; cbn [scan]; now rewrite Ha. Qed.

Lemma firstn_prefix_dot (l : str) (k : nat) :
  forallb dot l = true -> forallb dot (firstn k l) = true.
Proof.
  intro Hl. rewrite <- (firstn_skipn k l), forallb_app in Hl.
  now apply andb_true_iff in Hl as [Hl _].
Qed.

Lemma skipn_suffix_dot (l : str) (k : nat) :
  forallb dot l = true -> forallb dot (skipn k l) = true.
Proof.
  intro Hl. rewrite <- (firstn_skipn k l), forallb_app in Hl.
  now apply andb_true_iff in Hl as [_ Hl].
Qed.

Lemma length_join_after (more : list str) :
  length more <= length (join_after more).
Proof.
  induction more as [| l more IH]; [reflexivity |].
  unfold join_after in *. cbn [map concat length].
  rewrite length_app. cbn [length]. lia.
Qed.

(** ** Scans that stay within a line

    A pattern that starts with [^] under MULTILINE and whose matches,
    from the start of a line, lie within the line and are not empty:
    [finditer] then works line by line. [hit] tells, for a line, how long
    the match is and what its groups are; [view] is what the caller takes
    from a match, [out] the same thing told from the line. *)

Section LineScan.

Variable q : pattern.
Variable hit : str -> option (nat * list (nat * str)).
Variable A : Type.
Variable view : str -> found -> A.
Variable out : str -> nat -> list (nat * str) -> A.

Hypothesis hit_inside :
  forall cur k caps, hit cur = Some (k, caps) -> 0 < k <= length cur.

Hypothesis hit_start :
  forall done cur rest accept,
    at_bol true done = true -> forallb dot cur = true ->
    rest = [] \/ (exists r, rest = NEWLINE :: r) ->
    (forall j, length done < j -> accept j = true) ->
    attempt (Bol true :: q) (done ++ cur ++ rest) (length done) accept
    = match hit cur with
      | Some (k, caps) =>
          Some (mkFound (length done) (length done + k) caps)
      | None => None
      end.

Hypothesis view_line :
  forall done cur rest k caps,
    k <= length cur ->
    view (done ++ cur ++ rest)
      (mkFound (length done) (length done + k) caps)
    = out cur k caps.

Lemma attempt_inside (subject : str) (i : nat) (accept : nat -> bool) :
  at_bol true (firstn i subject) = false ->
  attempt (Bol true :: q) subject i accept = None.
Proof. intro Hb. unfold attempt. now rewrite exec_bol, Hb. Qed.

(** After a failed attempt inside a line the scan goes on at the start of
    the next line, if there is one. *)
Lemma scan_to_next_line (v : str) (subject pre : str) (more : list str)
  (accept : nat -> bool) :
  subject = pre ++ v ++ join_after more -> forallb dot v = true ->
  attempt (Bol true :: q) subject (length pre) accept = None ->
  scan (Bol true :: q) subject (length v + length (join_after more))
    (length pre) accept
  = match more with
    | [] => None
    | l :: more' =>
        scan (Bol true :: q) subject (length l + length (join_after more'))
          (length (pre ++ v ++ [NEWLINE])) (fun _ => true)
    end.
Proof.
  revert pre accept. induction v as [| c v IH]; intros pre accept Hs Hv Ha.
  - cbn [length Nat.add app]. destruct more as [| l more'].
    + cbn [join_after concat map length scan]. now rewrite Ha.
    + unfold join_after at 1. cbn [map concat]. fold (join_after more').
      cbn [length app]. rewrite length_app. cbn [scan]. rewrite Ha.
      rewrite length_app. cbn [length]. now rewrite Nat.add_1_r.
  - cbn [forallb] in Hv. apply andb_true_iff in Hv as [Hc Hv].
    cbn [length Nat.add scan]. rewrite Ha.
    assert (Hs' : subject = (pre ++ [c]) ++ v ++ join_after more)
      by (rewrite Hs, <- app_assoc; reflexivity).
    assert (Hl : length (pre ++ [c]) = S (length pre))
      by (rewrite length_app; cbn [length]; lia).
    rewrite <- Hl, (IH (pre ++ [c]) (fun _ => true) Hs' Hv).
    + destruct more; [reflexivity |]. do 2 f_equal.
      now rewrite <- !app_assoc.
    + apply attempt_inside. rewrite Hs' at 1.
      rewrite firstn_app, firstn_all, Nat.sub_diag, firstn_0, app_nil_r.
      apply at_bol_inside; [discriminate |]. cbn [forallb]. now rewrite Hc.
Qed.

(** What is found from the start of a line on, given what is found after
    a failed attempt inside a line that the same lines follow. *)
Lemma found_at_line_start (l : str) (more : list str) (subject done : str)
  (accept : nat -> bool) (fuel : nat) :
  (forall subject' pre v accept' fuel',
     subject' = pre ++ v ++ join_after more -> forallb dot v = true ->
     attempt (Bol true :: q) subject' (length pre) accept' = None ->
     length more <= fuel' ->
     map (view subject')
       match scan (Bol true :: q) subject'
               (length v + length (join_after more)) (length pre) accept' with
       | None => []
       | Some m =>
           m :: iterate fuel' (Bol true :: q) subject' (f_end m)
                  (f_end m =? f_start m)
       end
     = flat_map (line_out hit out) more) ->
  subject = done ++ l ++ join_after more -> at_bol true done = true ->
  forallb dot l = true ->
  (forall j, length done < j -> accept j = true) ->
  length more + 1 <= fuel ->
  map (view subject)
    match scan (Bol true :: q) subject (length l + length (join_after more))
            (length done) accept with
    | None => []
    | Some m =>
        m :: iterate fuel (Bol true :: q) subject (f_end m)
               (f_end m =? f_start m)
    end
  = flat_map (line_out hit out) (l :: more).
Proof.
  intros Hafter Hs Hb Hl Hacc Hfuel.
  assert (Ha : attempt (Bol true :: q) subject (length done) accept
               = match hit l with
                 | Some (k, caps) =>
                     Some (mkFound (length done) (length done + k) caps)
                 | None => None
                 end).
  { rewrite Hs. apply hit_start; try assumption. apply join_after_head. }
  cbn [flat_map]. unfold line_out at 1.
  destruct (hit l) as [[k caps] |] eqn:Eh.
  - erewrite scan_hit by exact Ha. cbn [map f_start f_end app].
    destruct (hit_inside Eh) as [Hk1 Hk2].
    f_equal; [rewrite Hs; now apply view_line |].
    destruct (Nat.eqb_spec (length done + k) (length done)) as [E | _];
      [lia |].
    destruct fuel as [| fuel']; [lia |]. cbn [iterate]. unfold search_from.
    assert (Hs' : subject = (done ++ firstn k l) ++ skipn k l ++ join_after more).
    { rewrite Hs, <- app_assoc. f_equal.
      now rewrite app_assoc, firstn_skipn. }
    assert (Hlf : length (firstn k l) = k) by (rewrite length_firstn; lia).
    replace (length subject - (length done + k))
      with (length (skipn k l) + length (join_after more))
      by (rewrite Hs' at 1; rewrite !length_app; lia).
    replace (length done + k) with (length (done ++ firstn k l))
      by (rewrite length_app; lia).
    apply Hafter; [assumption | now apply skipn_suffix_dot | | lia].
    apply attempt_inside. rewrite Hs' at 1.
    rewrite firstn_app, firstn_all, Nat.sub_diag, firstn_0, app_nil_r.
    apply at_bol_inside; [| now apply firstn_prefix_dot].
    intro E. rewrite E in Hlf. cbn in Hlf. lia.
  - cbn [app]. apply Hafter; [assumption | assumption | assumption | lia].
Qed.

Lemma found_after (more : list str) :
  Forall (fun l => forallb dot l = true) more ->
  forall subject pre v accept fuel,
    subject = pre ++ v ++ join_after more -> forallb dot v = true ->
    attempt (Bol true :: q) subject (length pre) accept = None ->
    length more <= fuel ->
    map (view subject)
      match scan (Bol true :: q) subject
              (length v + length (join_after more)) (length pre) accept with
      | None => []
      | Some m =>
          m :: iterate fuel (Bol true :: q) subject (f_end m)
                 (f_end m =? f_start m)
      end
    = flat_map (line_out hit out) more.
Proof.
  induction 1 as [| l more' Hl _ IH];
    intros subject pre v accept fuel Hs Hv Ha Hf.
  - erewrite scan_to_next_line by eassumption. reflexivity.
  - erewrite scan_to_next_line by eassumption. cbn [length] in Hf.
    apply found_at_line_start; try assumption.
    4: lia. 3: reflexivity.
    + rewrite Hs. unfold join_after at 1. cbn [map concat].
      fold (join_after more'). now rewrite <- !app_assoc.
    + unfold at_bol. rewrite !app_assoc, rev_app_distr. reflexivity.
Qed.

(** [finditer] on the whole text, line by line. *)
Lemma finditer_by_line (output : str) :
  map (view output) (finditer (Bol true :: q) output)
  = flat_map (line_out hit out)
      (fst (split_lines output) :: snd (split_lines output)).
Proof.
  destruct (split_lines_spec output) as (Hs & Hl & Hm).
  destruct (split_lines output) as [l more]. cbn [fst snd] in *.
  unfold finditer.
  replace (2 * length output + 2) with (S (2 * length output + 1)) by lia.
  cbn [iterate]. unfold search_from. rewrite Nat.sub_0_r.
  assert (Hlen : length output = length l + length (join_after more))
    by (rewrite Hs at 1; apply length_app).
  rewrite Hlen at 1. change 0 with (length (@nil char)) at 1.
  apply found_at_line_start with (done := []);
    [now apply found_after | assumption | reflexivity | assumption | |].
  - intros j Hj. reflexivity.
  - pose proof (length_join_after more). lia.
Qed.

End LineScan.

(** ** The names of the files of a commit, line by line *)

Lemma whole_line (done cur rest : str) (k : nat) (caps : list (nat * str)) :
  k <= length cur ->
  whole (done ++ cur ++ rest) (mkFound (length done) (length done + k) caps)
  = firstn k cur.
Proof.
  intro Hk. unfold whole. cbn [f_start f_end].
  rewrite skipn_app, skipn_all, Nat.sub_diag, skipn_0. cbn [app].
  replace (length done + k - length done) with k by lia.
  rewrite firstn_app. replace (k - length cur) with 0 by lia.
  now rewrite firstn_0, app_nil_r.
Qed.

(** X12. [modified_files_in_commit] yields, for each line of the output
    that contains [.py], the longest prefix of that line that ends with
    [.py], and nothing for the other lines. *)
Theorem modified_files_in_commit_spec (output : str) :
  modified_files_in_commit_of output
  = py_names (fst (split_lines output) :: snd (split_lines output)).
Proof.
  unfold modified_files_in_commit_of, rx_py_file.
  rewrite (@finditer_by_line
             [Rep dot 0; Lit (chr "."); Lit (chr "p"); Lit (chr "y")]
             (fun cur => match py_prefix cur with
                         | Some x => Some (length x, [])
                         | None => None
                         end)
             str whole (fun l k _ => firstn k l)).
  - unfold py_names. apply flat_map_ext. intro l. unfold line_out.
    destruct (py_prefix l) as [x |] eqn:Ep; [| reflexivity].
    destruct (py_prefix_some _ Ep) as (n & Hx & Hn & _).
    rewrite Hx at 2. rewrite Hx, length_firstn. do 2 f_equal. lia.
  - intros cur k caps Hh.
    destruct (py_prefix cur) as [x |] eqn:Ep; [| discriminate].
    injection Hh as <- _.
    destruct (py_prefix_some _ Ep) as (n & -> & Hn & _).
    rewrite length_firstn. lia.
  - intros done cur rest accept Hb Hc Hr Ha.
    rewrite attempt_line_start by assumption.
    now destruct (py_prefix cur).
  - intros done cur rest k caps Hk. now apply whole_line.
Qed.

(** ** The modified lines of a file *)

Lemma first_down_only_top (A : Type) (f : nat -> option A) (n : nat) :
  (forall k, k < n -> f k = None) -> first_down f n = f n.
Proof.
  intro Hf. destruct (f n) as [r |] eqn:E.
  - now apply first_down_top.
  - apply first_down_none. intros k Hk.
    destruct (Nat.eq_dec k n) as [-> | Hne]; [assumption | apply Hf; lia].
Qed.

Lemma exec_lits (h : str) (p : pattern) (pre s : str)
  (marks : list (nat * nat)) (caps : list (nat * str))
  (accept : nat -> bool) :
  exec (map Lit h ++ p) pre s marks caps accept
  = if startswith h s then
      exec p (pre ++ h) (skipn (length h) s) marks caps accept
    else None.
Proof.
  revert pre s. induction h as [| c h IH]; intros pre s.
  - cbn [map app length skipn]. rewrite app_nil_r. now destruct s.
  - cbn [map app]. rewrite exec_lit. destruct s as [| d s]; [reflexivity |].
    cbn [startswith length skipn].
    destruct (N.eqb_spec c d) as [<- | _]; [| reflexivity].
    cbn [andb]. rewrite IH, <- app_assoc. reflexivity.
Qed.

Lemma startswith_line (h u rest : str) :
  forallb dot h = true ->
  rest = [] \/ (exists r, rest = NEWLINE :: r) ->
  startswith h (u ++ rest) = startswith h u.
Proof.
  intros Hh Hr. revert u. induction h as [| c h IH]; intro u;
    [now destruct u, rest |].
  cbn [forallb] in Hh. apply andb_true_iff in Hh as [Hc Hh].
  destruct u as [| a u]; cbn [app startswith].
  - destruct Hr as [-> | (r & ->)]; [reflexivity |].
    unfold dot in Hc. apply negb_true_iff in Hc. now rewrite Hc.
  - now rewrite IH.
Qed.

Lemma span_line (cls : char -> bool) (u rest : str) :
  cls NEWLINE = false ->
  rest = [] \/ (exists r, rest = NEWLINE :: r) ->
  span cls (u ++ rest) = span cls u.
Proof.
  intros Hn Hr. induction u as [| a u IH]; cbn [app span].
  - destruct Hr as [-> | (r & ->)]; cbn [span]; [reflexivity |].
    now rewrite Hn.
  - destruct (cls a); [now rewrite IH | reflexivity].
Qed.

Section BlameFacts.

Variable isdecimal : char -> bool.
Hypothesis is_decimal_newline : isdecimal NEWLINE = false.
Hypothesis is_decimal_space : isdecimal (chr " ") = false.

(** The group with the second number: the longest run of digits, which
    must not be empty. *)
Lemma exec_second_number (pre r2 rest : str) (accept : nat -> bool) :
  rest = [] \/ (exists r, rest = NEWLINE :: r) ->
  accept (length pre + span isdecimal r2) = true ->
  exec [Open 1; Rep isdecimal 1; Close 1] pre (r2 ++ rest)
    [] [] accept
  = if 1 <=? span isdecimal r2 then
      Some (length pre + span isdecimal r2,
            [(1, firstn (span isdecimal r2) r2)])
    else None.
Proof.
  intros Hr Ha. rewrite exec_open, exec_rep.
  rewrite span_line by (apply is_decimal_newline || assumption).
  pose proof (span_le isdecimal r2) as Hle.
  destruct (span isdecimal r2) as [| n] eqn:En.
  - reflexivity.
  - apply first_down_top. cbn [Nat.leb].
    rewrite exec_close, exec_nil. cbn [mark Nat.eqb].
    rewrite firstn_app. replace (S n - length r2) with 0 by lia.
    rewrite firstn_0, app_nil_r, length_app, length_firstn.
    replace (Nat.min (S n) (length r2)) with (S n) by lia.
    rewrite Ha, skipn_app, skipn_all, Nat.sub_diag. reflexivity.
Qed.

(** The attempt at the start of a line of the blame. *)
Lemma attempt_blame_line (hash done cur rest : str) (accept : nat -> bool) :
  forallb dot hash = true -> at_bol true done = true ->
  rest = [] \/ (exists r, rest = NEWLINE :: r) ->
  (forall j, length done < j -> accept j = true) ->
  attempt (rx_blame isdecimal hash) (done ++ cur ++ rest) (length done)
    accept
  = match blame_digits isdecimal hash cur with
    | Some (k, d) => Some (mkFound (length done) (length done + k) [(1, d)])
    | None => None
    end.
Proof.
  intros Hh Hb Hr Ha. unfold attempt, rx_blame.
  rewrite firstn_app, firstn_all, Nat.sub_diag, firstn_0, app_nil_r.
  rewrite skipn_app, skipn_all, Nat.sub_diag, skipn_0. cbn [app].
  rewrite exec_bol, Hb, exec_lits, startswith_line by assumption.
  unfold blame_digits.
  destruct (startswith hash cur) eqn:Es; [| reflexivity].
  apply startswith_spec in Es as (c1 & ->).
  rewrite <- app_assoc, !skipn_app, !skipn_all, Nat.sub_diag. cbn [skipn app].
  assert (Hno : forall pre p marks caps,
            exec (Lit (chr " ") :: p) pre rest marks caps accept = None).
  { intros pre p marks caps. rewrite exec_lit.
    now destruct Hr as [-> | (r & ->)]. }
  destruct c1 as [| s1 r1];
    [cbn [app length Nat.sub skipn]; now rewrite Hno |].
  cbn [app length Nat.sub skipn]. rewrite exec_lit.
  destruct (chr " " =? s1)%N; [| reflexivity]. cbn [andb].
  rewrite exec_rep, span_line by (apply is_decimal_newline || assumption).
  pose proof (span_le isdecimal r1) as Hle1.
  rewrite first_down_only_top.
  - destruct (1 <=? span isdecimal r1); [| reflexivity].
    rewrite firstn_app, skipn_app.
    replace (span isdecimal r1 - length r1) with 0 by lia.
    rewrite firstn_0, skipn_0, app_nil_r.
    destruct (skipn (span isdecimal r1) r1) as [| s2 r2] eqn:E2;
      [cbn [app]; now rewrite Hno |].
    cbn [app]. rewrite exec_lit.
    destruct (chr " " =? s2)%N; [| reflexivity]. cbn [andb].
    rewrite exec_second_number; [| assumption |].
    + destruct (1 <=? span isdecimal r2); [| reflexivity].
      rewrite !length_app, length_firstn. cbn [length].
      replace (Nat.min (span isdecimal r1) (length r1))
        with (span isdecimal r1) by lia.
      do 2 f_equal. lia.
    + apply Ha. rewrite !length_app. cbn [length]. lia.
  - intros k Hk. cbv beta. destruct (1 <=? k); [| reflexivity].
    assert (Hk' : k < span isdecimal (r1 ++ rest))
      by (rewrite span_line by (apply is_decimal_newline || assumption);
          exact Hk).
    apply span_skipn_lt in Hk' as (d & t & -> & Hd).
    rewrite exec_lit.
    destruct (N.eqb_spec (chr " ") d) as [<- | _]; [| reflexivity].
    rewrite is_decimal_space in Hd. discriminate.
Qed.

Lemma blame_digits_inside (hash cur : str) (k : nat) (d : str) :
  blame_digits isdecimal hash cur = Some (k, d) -> 0 < k <= length cur.
Proof.
  unfold blame_digits.
  destruct (startswith hash cur) eqn:Es; [| discriminate].
  apply startswith_spec in Es as (c1 & ->).
  rewrite skipn_app, skipn_all, Nat.sub_diag. cbn [skipn app].
  destruct c1 as [| s1 r1]; [discriminate |].
  destruct ((chr " " =? s1)%N && _); [| discriminate].
  destruct (skipn _ r1) as [| s2 r2] eqn:E2; [discriminate |].
  destruct ((chr " " =? s2)%N && _); [| discriminate].
  intro E. injection E as <- _.
  pose proof (span_le isdecimal r2) as Hle2.
  assert (Hl : length r1 = span isdecimal r1 + S (length r2)).
  { rewrite <- (firstn_skipn (span isdecimal r1) r1) at 1.
    rewrite E2, length_app, length_firstn. cbn [length].
    pose proof (span_le isdecimal r1). lia. }
  rewrite length_app. cbn [length]. lia.
Qed.

Lemma plain_dot (hash : str) :
  forallb plain hash = true -> forallb dot hash = true.
Proof.
  intro H. apply forallb_forall. intros c Hc.
  apply (proj1 (forallb_forall _ _) H) in Hc. unfold plain in Hc.
  now apply andb_true_iff in Hc.
Qed.

Lemma effective_hash_not_nil (commit_hash : option str) :
  effective_hash commit_hash <> [].
Proof. now destruct commit_hash as [[| c h] |]. Qed.

Lemma blame_digits_text (hash cur : str) (k : nat) (d : str) :
  blame_digits isdecimal hash cur = Some (k, d) ->
  d <> [] /\ forallb isdecimal d = true.
Proof.
  unfold blame_digits.
  destruct (startswith hash cur); [| discriminate].
  destruct (skipn (length hash) cur) as [| s1 r1]; [discriminate |].
  destruct ((chr " " =? s1)%N && _); [| discriminate].
  destruct (skipn _ r1) as [| s2 r2]; [discriminate |].
  destruct (chr " " =? s2)%N; [| discriminate]. cbn [andb].
  destruct (1 <=? span isdecimal r2) eqn:E1; [| discriminate].
  intro E. injection E as _ <-. apply Nat.leb_le in E1.
  split.
  - destruct r2 as [| c r2]; [cbn in E1; lia |].
    cbn [span] in E1 |- *. destruct (isdecimal c); [discriminate | lia].
  - clear E1. induction r2 as [| c r2 IH]; [reflexivity |].
    cbn [span]. destruct (isdecimal c) eqn:Ec; [| reflexivity].
    cbn [firstn forallb]. now rewrite Ec, IH.
Qed.

(** The matches of the blame pattern, line by line, under any view of a
    match that only looks at the groups. *)
Lemma blame_by_line (B : Type) (see : list (nat * str) -> B) (hash output : str) :
  forallb dot hash = true ->
  map (fun m => see (f_caps m)) (finditer (rx_blame isdecimal hash) output)
  = flat_map
      (fun l =>
         match blame_digits isdecimal hash l with
         | Some (_, d) => [see [(1, d)]]
         | None => []
         end)
      (fst (split_lines output) :: snd (split_lines output)).
Proof.
  intro Hh. unfold rx_blame.
  rewrite (@finditer_by_line
             (map Lit hash ++
              [Lit (chr " "); Rep isdecimal 1; Lit (chr " ");
               Open 1; Rep isdecimal 1; Close 1])
             (fun cur =>
                match blame_digits isdecimal hash cur with
                | Some (k, d) => Some (k, [(1, d)])
                | None => None
                end)
             B
             (fun _ m => see (f_caps m))
             (fun _ _ caps => see caps)).
  - apply flat_map_ext. intro l. unfold line_out.
    now destruct (blame_digits isdecimal hash l) as [[k d] |].
  - intros cur k caps Hc.
    destruct (blame_digits isdecimal hash cur) as [[k' d] |] eqn:Eb;
      [| discriminate].
    injection Hc as <- _. now apply blame_digits_inside in Eb.
  - intros done cur rest accept Hb Hc Hr Ha.
    change (Bol true :: map Lit hash ++ _) with (rx_blame isdecimal hash).
    rewrite attempt_blame_line by assumption.
    now destruct (blame_digits isdecimal hash cur) as [[k d] |].
  - reflexivity.
Qed.

(** X14. [modified_line_nums] yields, line by line and in order, [int]
    of the second number of each line of the blame that starts with the
    hash, a space, a number, a space and a number; the other lines give
    nothing. *)
Theorem modified_line_nums_spec (A : Type) (int : str -> A)
  (commit_hash : option str) (output : str) :
  forallb plain (effective_hash commit_hash) = true ->
  modified_line_nums_of isdecimal int commit_hash output
  = flat_map
      (fun l =>
         match blame_digits isdecimal (effective_hash commit_hash) l with
         | Some (_, d) => [Some (int d)]
         | None => []
         end)
      (fst (split_lines output) :: snd (split_lines output)).
Proof.
  intro Hh. unfold modified_line_nums_of.
  rewrite (blame_by_line (fun caps => option_map int (group caps 1)))
    by now apply plain_dot.
  apply flat_map_ext. intro l.
  now destruct (blame_digits isdecimal (effective_hash commit_hash) l)
    as [[k d] |].
Qed.

(** X15. Whatever the blame is, [int] is only handed non-empty texts of
    decimal digits: neither [int(None)] nor a text that is no number
    occurs. *)
Theorem modified_line_nums_texts (commit_hash : option str) (output : str)
  (m : found) :
  forallb plain (effective_hash commit_hash) = true ->
  In m (finditer (rx_blame isdecimal (effective_hash commit_hash)) output) ->
  exists d, group (f_caps m) 1 = Some d /\ d <> [] /\
            forallb isdecimal d = true.
Proof.
  intros Hh Hm.
  apply (in_map (fun m => group (f_caps m) 1)) in Hm.
  rewrite (blame_by_line (fun caps => group caps 1)) in Hm
    by now apply plain_dot.
  apply in_flat_map in Hm as (l & _ & Hl).
  destruct (blame_digits isdecimal (effective_hash commit_hash) l)
    as [[k d] |] eqn:Eb; [| contradiction].
  destruct Hl as [Hl | []]. exists d. split.
  - now rewrite <- Hl.
  - exact (blame_digits_text _ _ Eb).
Qed.

End BlameFacts.

(** ** What a match is made of *)

Lemma scan_attempt (p : pattern) (subject : str) (k i : nat)
  (accept : nat -> bool) (m : found) :
  scan p subject k i accept = Some m ->
  exists i' accept', attempt p subject i' accept' = Some m.
Proof.
  revert i accept. induction k as [| k IH]; intros i accept; cbn [scan];
    destruct (attempt p subject i accept) as [m' |] eqn:E; intro H;
    try discriminate.
  - injection H as <-. now exists i, accept.
  - injection H as <-. now exists i, accept.
  - now apply IH in H.
Qed.

Lemma iterate_attempt (fuel : nat) (p : pattern) (subject : str) (i : nat)
  (advance : bool) (m : found) :
  In m (iterate fuel p subject i advance) ->
  exists i' accept', attempt p subject i' accept' = Some m.
Proof.
  revert i advance. induction fuel as [| fuel IH]; intros i advance;
    cbn [iterate]; [intros [] |].
  destruct (search_from p subject i advance) as [m' |] eqn:E; [| intros []].
  intros [<- | Hin].
  - unfold search_from in E. now apply scan_attempt in E.
  - now apply IH in Hin.
Qed.

(** Every match of [finditer] is the result of a run of the pattern at
    some place of the subject. *)
Lemma finditer_exec (p : pattern) (subject : str) (m : found) :
  In m (finditer p subject) ->
  exists i accept,
    exec p (firstn i subject) (skipn i subject) [] [] accept
    = Some (f_end m, f_caps m).
Proof.
  intro Hin. apply iterate_attempt in Hin as (i & accept & Ha).
  exists i, accept. unfold attempt in Ha.
  destruct (exec p (firstn i subject) (skipn i subject) [] [] accept)
    as [[j caps] |]; [| discriminate].
  now injection Ha as <-.
Qed.

Section ExecInversion.

Variables (p : pattern) (pre rest : str) (marks : list (nat * nat))
  (caps : list (nat * str)) (accept : nat -> bool)
  (r : nat * list (nat * str)).

Lemma exec_nil_inv :
  exec [] pre rest marks caps accept = Some r -> r = (length pre, caps).
Proof. cbn [exec]. destruct (accept (length pre)); congruence. Qed.

Lemma exec_lit_inv (c : char) :
  exec (Lit c :: p) pre rest marks caps accept = Some r ->
  exists rest', rest = c :: rest' /\
                exec p (pre ++ [c]) rest' marks caps accept = Some r.
Proof.
  cbn [exec]. destruct rest as [| d rest']; [discriminate |].
  destruct (N.eqb_spec c d) as [<- | _]; [| discriminate].
  intro H. now exists rest'.
Qed.

Lemma exec_rep_inv (cls : char -> bool) (least : nat) :
  exec (Rep cls least :: p) pre rest marks caps accept = Some r ->
  exists k, least <= k <= span cls rest /\
            exec p (pre ++ firstn k rest) (skipn k rest) marks caps accept
            = Some r.
Proof.
  cbn [exec]. intro H.
  apply first_down_inv in H as (k & Hk & Hf & _).
  destruct (least <=? k) eqn:El; [| discriminate].
  apply Nat.leb_le in El. exists k. split; [lia | assumption].
Qed.

Lemma exec_bol_inv (multiline : bool) :
  exec (Bol multiline :: p) pre rest marks caps accept = Some r ->
  at_bol multiline pre = true /\ exec p pre rest marks caps accept = Some r.
Proof. cbn [exec]. now destruct (at_bol multiline pre). Qed.

End ExecInversion.

(** A group around one repeated class takes a run of that class. *)
Lemma exec_group_inv (p : pattern) (pre rest : str)
  (marks : list (nat * nat)) (caps : list (nat * str))
  (accept : nat -> bool) (r : nat * list (nat * str))
  (g : nat) (cls : char -> bool) (least : nat) :
  exec (Open g :: Rep cls least :: Close g :: p) pre rest marks caps accept
  = Some r ->
  exists k, least <= k <= span cls rest /\
            exec p (pre ++ firstn k rest) (skipn k rest)
              ((g, length pre) :: marks) ((g, firstn k rest) :: caps) accept
            = Some r.
Proof.
  rewrite exec_open. intro H.
  apply exec_rep_inv in H as (k & Hk & H). exists k. split; [exact Hk |].
  rewrite exec_close in H. cbn [mark] in H. rewrite Nat.eqb_refl in H.
  now rewrite skipn_app, skipn_all, Nat.sub_diag in H.
Qed.


Lemma firstn_not_nil (s : str) (k : nat) :
  1 <= k <= length s -> firstn k s <> [].
Proof.
  intros Hk E. apply (f_equal (@length char)) in E.
  rewrite length_firstn in E. cbn in E. lia.
Qed.

(** X16. Every name that [modified_uncommited_files] yields is a text
    without a newline followed by [.py]; [group(1)] is never [None]. *)
Theorem modified_uncommited_files_names (output : str) (y : option str) :
  In y (modified_uncommited_files_of output) ->
  exists x, y = Some (x ++ py ".py") /\ forallb dot x = true.
Proof.
  unfold modified_uncommited_files_of. intro Hin.
  apply in_map_iff in Hin as (m & <- & Hin).
  apply finditer_exec in Hin as (i & accept & H).
  unfold rx_status in H.
  apply exec_bol_inv in H as (_ & H).
  apply exec_rep_inv in H as (k1 & _ & H).
  apply exec_rep_inv in H as (k2 & _ & H).
  apply exec_rep_inv in H as (k3 & _ & H).
  rewrite exec_open in H.
  apply exec_rep_inv in H as (k & Hk & H).
  apply exec_lit_inv in H as (t1 & E1 & H).
  apply exec_lit_inv in H as (t2 & -> & H).
  apply exec_lit_inv in H as (t3 & -> & H).
  rewrite exec_close in H. apply exec_nil_inv in H.
  injection H as _ ->. cbn [mark group Nat.eqb].
  exists (firstn k (skipn k3 (skipn k2 (skipn k1 (skipn i output))))).
  split.
  - remember (((firstn i output ++ _) ++ _) ++ _) as before.
    rewrite <- !app_assoc, skipn_app, skipn_all, Nat.sub_diag.
    reflexivity.
  - apply span_firstn. lia.
Qed.

(** X17. In every complaint that [lint_problems] yields the file name is
    not empty and has neither a space nor a colon, the line number is
    [int] of a non-empty text of decimal digits, the flags have no closing
    bracket and the message has no newline; no group is ever [None]. *)
Theorem lint_problems_fields (isdecimal : char -> bool) (A : Type)
  (int : str -> A) (output : str)
  (y : option (option str * A * option str * option str)) :
  In y (lint_problems_of isdecimal int output) ->
  exists filename linenumber flags message,
    y = Some (Some filename, int linenumber, Some flags, Some message) /\
    (filename <> [] /\ forallb name_char filename = true) /\
    (linenumber <> [] /\ forallb isdecimal linenumber = true) /\
    forallb flag_char flags = true /\
    forallb dot message = true.
Proof.
  unfold lint_problems_of. intro Hin.
  apply in_map_iff in Hin as (m & <- & Hin).
  apply finditer_exec in Hin as (i & accept & H).
  unfold pylint_regex in H.
  apply exec_bol_inv in H as (_ & H).
  apply exec_group_inv in H as (k1 & Hk1 & H).
  apply exec_lit_inv in H as (t1 & E1 & H).
  apply exec_group_inv in H as (k2 & Hk2 & H).
  apply exec_lit_inv in H as (t2 & E2 & H).
  apply exec_rep_inv in H as (k3 & _ & H).
  apply exec_lit_inv in H as (t3 & E3 & H).
  apply exec_group_inv in H as (k4 & Hk4 & H).
  apply exec_lit_inv in H as (t4 & E4 & H).
  apply exec_rep_inv in H as (k5 & _ & H).
  apply exec_group_inv in H as (k6 & Hk6 & H).
  apply exec_nil_inv in H. injection H as _ ->.
  cbn [group Nat.eqb].
  do 4 eexists. split; [reflexivity |].
  pose proof (span_le name_char (skipn i output)) as L1.
  pose proof (span_le isdecimal t1) as L2.
  split; [split; [apply firstn_not_nil; lia | apply span_firstn; lia] |].
  split; [split; [apply firstn_not_nil; lia | apply span_firstn; lia] |].
  split; apply span_firstn; lia.
Qed.

(** ** The hash that the script works with *)

Lemma ascii_word_plain (c : char) : ascii_word c = true -> plain c = true.
Proof.
  intro H. unfold plain, dot, NEWLINE.
  change metachars
    with [46; 94; 36; 42; 43; 63; 123; 125; 91; 93; 92; 124; 40; 41]%N.
  cbn [existsb].
  repeat match goal with
         | |- context [(c =? ?n)%N] =>
             destruct (N.eqb_spec c n) as [-> | _]; [discriminate H |]
         end.
  reflexivity.
Qed.

(** X18. The script always gets its hash, and the hash that the blame is
    searched for, the forty zeros when there is none, is made of
    characters that stand for themselves in the pattern, as long as no
    word character is a newline or has a meaning in a pattern. *)
Theorem script_hash_plain (is_word : char -> bool) (git_show : str -> str)
  (argv : list str) :
  (forall c, is_word c = true -> plain c = true) ->
  exists h, hash_ is_word git_show argv = Some h /\
            forallb plain (effective_hash h) = true.
Proof.
  intro Hw.
  assert (Hz : forallb plain (repeat (chr "0") 40) = true) by reflexivity.
  destruct argv as [| a0 [| ref more]];
    [exists None; now split | exists None; now split |].
  cbn [hash_]. rewrite commit_hash_of_eq. cbn [option_map].
  eexists. split; [reflexivity |].
  pose proof (span_firstn is_word (git_show ref) (Nat.le_refl _)) as Hf.
  destruct (firstn (span is_word (git_show ref)) (git_show ref))
    as [| c h] eqn:E; [exact Hz |].
  cbn [effective_hash]. apply forallb_forall. intros x Hx.
  apply Hw. exact (proj1 (forallb_forall _ _) Hf x Hx).
Qed.

(** * Instances *)

Lemma normal_return_shape_witness :
  exists segs blanks tail,
    [py " "; py "[#|a"; py "b|#]"; py ""; py "c"]
    = compose segs (blanks ++ tail) /\
    [(2, [py "[#|a"; py "b|#]"])] = located 1 segs /\
    Forall (fun seg => forallb isspace (fst seg) = true /\
                       is_entry_run (snd seg) = true) segs /\
    forallb isspace blanks = true /\
    (tail = [] \/
     (starts_retained tail = true /\ sentinel_free tail = true /\
      length tail <= MAX_BUFFER)).
Proof.
  apply (proj1 (normal_return_shape
                  [py " "; py "[#|a"; py "b|#]"; py ""; py "c"]
                  [(2, [py "[#|a"; py "b|#]"])])).
  reflexivity.
Defined.

Lemma overflow_shape_witness :
  aggregate_entries
    (compose [([py " "], [py "a|#]"])]
       ([] ++ repeat (py "x") 5000 ++ py "y|#]" :: [py "z"]))
  = (located 1 [([py " "], [py "a|#]"])], Raised AssertionError).
Proof.
  apply (proj2 (overflow_shape _ _ AssertionError)).
  split; [reflexivity |].
  exists [([py " "], [py "a|#]"])], [], (repeat (py "x") 5000),
         (py "y|#]"), [py "z"].
  split; [reflexivity |]. split; [reflexivity |].
  split; [repeat constructor |]. split; [reflexivity |].
  split; [reflexivity |]. split; vm_compute; reflexivity.
Defined.

Lemma one_entry_per_sentinel_line_witness :
  length [(2, [py "[#|a"; py "b|#]"]); (4, [py "c|#]"])]
  = length (filter (re_match rx_end)
              [py " "; py "[#|a"; py "b|#]"; py "c|#]"; py "d"]).
Proof.
  apply (@one_entry_per_sentinel_line
           [py " "; py "[#|a"; py "b|#]"; py "c|#]"; py "d"]).
  reflexivity.
Defined.

Lemma reported_entries_witness :
  In (1, [py "[#|SEVERE"; py "x|#]"])
    (matching_entries [literal (py "SEVERE"); literal (py "x")]
       [py "[#|SEVERE"; py "x|#]"; py "[#|INFO|#]"]).
Proof.
  apply (proj1 (reported_entries
                  [literal (py "SEVERE"); literal (py "x")]
                  [py "[#|SEVERE"; py "x|#]"; py "[#|INFO|#]"]
                  (1, [py "[#|SEVERE"; py "x|#]"]))).
  split; [now left |].
  intros regex [<- | [<- | []]].
  - exists (py "[#|SEVERE"). split; [now left | reflexivity].
  - exists (py "x|#]"). split; [right; now left | reflexivity].
Defined.

(** An absolute path that ends with a slash is taken as a pattern. *)
Lemma regex_arg_spec_witness :
  regex_arg (py " /var/log/ ") = Some (Some (py "var/log")).
Proof.
  apply (proj1 (regex_arg_spec (py " /var/log/ ") (py "var/log"))).
  exists (py " "), (py " "). now repeat split.
Defined.

(** ** Worked examples of the scripts' glue *)

Example regex_arg_examples :
  map regex_arg
    [py "/SEVERE/"; py "/var/log/server.log"; py "server.log"; py "//";
     py "/"; py "/a/ /"]
  = [Some (Some (py "SEVERE")); None; None; Some (Some []); None;
     Some (Some (py "a/ "))].
Proof. reflexivity. Qed.

(** Names that only start like Python files come out cut after [.py]. *)
Example modified_files_example :
  modified_files_in_commit_of
    (py "a.py" ++ [NEWLINE] ++ py "b.pyc" ++ [NEWLINE] ++ py "README"
     ++ [NEWLINE] ++ py "d.py.orig" ++ [NEWLINE])
  = [py "a.py"; py "b.py"; py "d.py"].
Proof. reflexivity. Qed.

Example print_match_example :
  print_match (py "server.log") (12, [py "[#|a" ++ [NEWLINE]; py "b|#]" ++ [NEWLINE]])
  = py "server.log (line 12)" ++ [NEWLINE]
    ++ py "====================" ++ [NEWLINE]
    ++ py "[#|a" ++ [NEWLINE] ++ py "b|#]" ++ [NEWLINE] ++ [NEWLINE].
Proof. reflexivity. Qed.

(** ** The modified lines, on a small blame *)

Lemma modified_line_nums_spec_witness :
  modified_line_nums_of ascii_digit ascii_int (Some (py "ab12"))
    (py "ab12 3 45 1" ++ [NEWLINE] ++ py "zz" ++ [NEWLINE] ++ py "ab12 7 8")
  = flat_map
      (fun l =>
         match blame_digits ascii_digit (py "ab12") l with
         | Some (_, d) => [Some (ascii_int d)]
         | None => []
         end)
      [py "ab12 3 45 1"; py "zz"; py "ab12 7 8"].
Proof.
  exact (@modified_line_nums_spec ascii_digit eq_refl eq_refl nat ascii_int
           (Some (py "ab12"))
           (py "ab12 3 45 1" ++ [NEWLINE] ++ py "zz" ++ [NEWLINE]
            ++ py "ab12 7 8")
           eq_refl).
Defined.

Lemma modified_line_nums_texts_witness :
  exists d,
    group [(1, py "45")] 1 = Some d /\ d <> [] /\
    forallb ascii_digit d = true.
Proof.
  exact (@modified_line_nums_texts ascii_digit eq_refl eq_refl
           (Some (py "ab12")) (py "ab12 3 45 1" ++ [NEWLINE] ++ py "zz")
           (mkFound 0 9 [(1, py "45")]) eq_refl (or_introl eq_refl)).
Defined.

(** Lines of a blame: only those that start with the hash and two numbers
    count, and the number may be cut short by what follows it. *)
Example modified_line_nums_example :
  modified_line_nums_of ascii_digit ascii_int (Some (py "ab12"))
    (py "ab12 3 45 1" ++ [NEWLINE] ++ py "zz" ++ [NEWLINE]
     ++ py "ab12 7 8" ++ [NEWLINE] ++ py "ab12 7  8" ++ [NEWLINE]
     ++ py "xab12 1 2" ++ [NEWLINE] ++ py "ab12 10 0042x" ++ [NEWLINE]
     ++ py "ab12 5 6")
  = [Some 45; Some 8; Some 42; Some 6].
Proof. reflexivity. Qed.

(** Without a hash the lines of forty zeros are the ones that count. *)
Example modified_line_nums_uncommited :
  modified_line_nums_of ascii_digit (fun d => d) (Some [])
    (repeat (chr "0") 40 ++ py " 1 2 3" ++ [NEWLINE]
     ++ repeat (chr "0") 41 ++ py " 1 2" ++ [NEWLINE])
  = [Some (py "2")].
Proof. reflexivity. Qed.

(** ** The files modified locally and the complaints, on small outputs *)

Lemma modified_uncommited_files_names_witness :
  exists x, Some (py "a.py") = Some (x ++ py ".py") /\ forallb dot x = true.
Proof.
  exact (@modified_uncommited_files_names
           (py " M a.py" ++ [NEWLINE] ++ py "?? b.py")
           (Some (py "a.py")) (or_introl eq_refl)).
Defined.

Lemma lint_problems_fields_witness :
  exists filename linenumber flags message,
    Some (Some (py "a/b.py"), 25, Some (py "W, f"), Some (py "Unused"))
    = Some (Some filename, ascii_int linenumber, Some flags, Some message) /\
    (filename <> [] /\ forallb name_char filename = true) /\
    (linenumber <> [] /\ forallb ascii_digit linenumber = true) /\
    forallb flag_char flags = true /\
    forallb dot message = true.
Proof.
  exact (@lint_problems_fields ascii_digit nat ascii_int
           (py "a/b.py:25: [W, f] Unused" ++ [NEWLINE])
           (Some (Some (py "a/b.py"), 25, Some (py "W, f"),
                  Some (py "Unused")))
           (or_introl eq_refl)).
Defined.

(** The status letters need no space after them, the white space before
    the name may hold newlines, and a name goes on to the last [.py] of
    its line. *)
Example modified_uncommited_files_examples :
  modified_uncommited_files_of
    (py " M a.py" ++ [NEWLINE] ++ py "?? b.py" ++ [NEWLINE]
     ++ py "MM  c.pyc" ++ [NEWLINE] ++ py "R  old.py -> new.py" ++ [NEWLINE])
  = [Some (py "a.py"); Some (py "c.py"); Some (py "old.py -> new.py")]
  /\ modified_uncommited_files_of (py "AM.py") = [Some (py ".py")]
  /\ modified_uncommited_files_of
       (py " D gone.py" ++ [NEWLINE] ++ py "M" ++ [NEWLINE; NEWLINE]
        ++ py "z.py" ++ [NEWLINE])
     = [Some (py "z.py")].
Proof. repeat split; reflexivity. Qed.

(** A file name and the flags may run over several lines, and the
    message may be the line after the flags. *)
Example lint_problems_examples :
  lint_problems_of ascii_digit ascii_int
    (py "a/b.py:25: [W, get_data] Unused argument" ++ [NEWLINE]
     ++ py "foo" ++ [NEWLINE] ++ py "bar.py:3:[C]" ++ [NEWLINE]
     ++ py "  next line" ++ [NEWLINE])
  = [Some (Some (py "a/b.py"), 25, Some (py "W, get_data"),
           Some (py "Unused argument"));
     Some (Some (py "foo" ++ [NEWLINE] ++ py "bar.py"), 3, Some (py "C"),
           Some (py "next line"))]
  /\ lint_problems_of ascii_digit ascii_int (py " a:1:[]") = []
  /\ lint_problems_of ascii_digit ascii_int
       (py "a:12:[] " ++ [NEWLINE; NEWLINE] ++ py " x" ++ [NEWLINE]
        ++ py "y:3:[]")
     = [Some (Some (py "a"), 12, Some [], Some (py "x"));
        Some (Some (py "y"), 3, Some [], Some [])].
Proof. repeat split; reflexivity. Qed.

Lemma script_hash_plain_witness :
  exists h,
    hash_ ascii_word (fun _ => py "ab12" ++ [NEWLINE] ++ py "a.py")
      [py "git_lint.py"; py "HEAD"] = Some h /\
    forallb plain (effective_hash h) = true.
Proof.
  exact (@script_hash_plain ascii_word
           (fun _ => py "ab12" ++ [NEWLINE] ++ py "a.py")
           [py "git_lint.py"; py "HEAD"] ascii_word_plain).
Defined.

(** ** The report of a well-formed log *)

(** X13. For a file that opens and whose lines are blank lines and
    well-formed entries only, the script prints, in order, the header,
    the rule and the lines of exactly the entries in which every pattern
    is found, and does not fail. *)
Theorem report_well_formed {R : Type} `{Searchable R}
  (open_lines : str -> option (list str)) (regexes : list R)
  (filename : str) (segs : list (list str * list str))
  (trailing : list str) :
  open_lines filename = Some (compose segs trailing) ->
  well_formed_stream segs trailing = true ->
  report_file open_lines regexes filename
  = (flat_map (print_match filename)
       (filter (make_regex_filter regexes) (located 1 segs)), None).
Proof.
  intros Ho Hw. unfold report_file. rewrite Ho.
  destruct (@loop_compose segs trailing 1 init eq_refl Hw) as (st' & Hl & _).
  unfold aggregate_entries. now rewrite Hl.
Qed.

Lemma report_well_formed_witness :
  report_file (fun _ => Some [py " "; py "[#|SEVERE"; py "x|#]"; py "[#|INFO|#]"])
    [literal (py "SEVERE")] (py "f")
  = (print_match (py "f") (2, [py "[#|SEVERE"; py "x|#]"]) ++ [], None).
Proof.
  exact (@report_well_formed regex _
           (fun _ => Some [py " "; py "[#|SEVERE"; py "x|#]"; py "[#|INFO|#]"])
           [literal (py "SEVERE")] (py "f")
           [([py " "], [py "[#|SEVERE"; py "x|#]"]); ([], [py "[#|INFO|#]"])]
           [] eq_refl eq_refl).
Defined.
